(** * Digger: the 2D game engine of script.js

    A shallow embedding of the engine core (GameEngine, EventSystem,
    Inventory, GameObject, Player, Item, Scene, GameScene) and the
    properties its specification states about it.

    Conventions of the embedding.
    - JavaScript numbers are modelled as exact rationals [Q]: rounding,
      NaN and the infinities of binary64 are not modelled.
    - JavaScript objects that are shared by reference (game objects,
      scenes, callbacks) live in a store indexed by references [ref];
      the lists of the engine and of the scenes hold references, so one
      object registered in two lists is one object.
    - There is one engine (window.gameEngine): the back-reference
      [obj.engine] / [scene.engine] is either null or that engine and is
      modelled by a boolean.
    - Calls whose bodies are outside the engine core (DOM refresh, the
      drawing surface, timers, subscriber callbacks) are recorded, in
      order, in a trace of [effect]s.  Subscriber callbacks are opaque:
      they are assumed not to reenter the engine. *)

From Stdlib Require Import QArith Qminmax Lqa.
From stdpp Require Import gmap strings list fin_maps.

Local Open Scope Q_scope.

(** ** Numbers *)

(** [a <= b] and [a < b] on JavaScript numbers, as booleans. *)
Definition Qleb (a b : Q) : bool := Qle_bool a b.
Definition Qltb (a b : Q) : bool := negb (Qle_bool b a).

(** Math.max and Math.min. *)
Definition Math_max (a b : Q) : Q := Qmax a b.
Definition Math_min (a b : Q) : Q := Qmin a b.

(** ** Data model *)

(** References into the object store. *)
Abbreviation ref := nat.

(** A subscriber callback, identified by reference (indexOf compares
    functions by identity). *)
Abbreviation callback := nat.

(** The itemData literal handed to [new Item(x, y, itemData)].  The onUse
    closure only serves the DOM click handler of the inventory panel and
    is left out. *)
Record ItemData := mkItemData {
  name : string;
  icon : option string;
  description : string;
  dialogue : option string
}.

(** What is passed to the subscribers of a channel. *)
Inductive payload :=
| KeyPayload (code : string)
| ClickPayload (x y : Q)
| ItemPayload (d : ItemData).

(** Observable calls, in the order they happen. *)
Inductive effect :=
| Called (cb : callback) (data : payload)   (* callback(data) *)
| UpdateUI (shown : list ItemData)          (* Inventory.updateUI() *)
| ShowDialogue (text : string)              (* Item.showDialogue(text) *)
| Init (scene : ref)                        (* scene.init() *)
| ObjUpdate (obj : ref) (dt : Q)            (* obj.update(dt) *)
| EngineUpdate (dt : Q)                     (* engine.update(dt) *)
| EngineRender                              (* engine.render() *)
| RequestAnimationFrame.                    (* requestAnimationFrame(...) *)

(** class EventSystem: this.events, a Map from channel to array. *)
Abbreviation EventSystem := (gmap string (list callback)).

(** class Inventory *)
Record Inventory := mkInventory {
  items : list ItemData;
  maxItems : nat
}.

(** this.direction of a Player *)
Record Direction := mkDirection { dir_x : Q; dir_y : Q }.

(** The subclasses of GameObject with their own fields. *)
Inductive ObjKind :=
| IsGameObject
| IsPlayer (speed : Q) (direction : Direction)
| IsItem (itemData : ItemData) (collected hovered : bool).

(** class GameObject; [obj_engine] is true when this.engine is set. *)
Record GameObject := mkGameObject {
  obj_x : Q;
  obj_y : Q;
  obj_width : Q;
  obj_height : Q;
  obj_visible : bool;
  obj_engine : bool;
  obj_kind : ObjKind
}.

(** The object returned by getBounds(). *)
Record Bounds := mkBounds {
  b_x : Q; b_y : Q; b_width : Q; b_height : Q
}.

(** The subclasses of Scene with their own fields. *)
Inductive SceneKind :=
| IsScene
| IsGameScene (player : option ref) (gs_items : list ref) (cgTriggered : bool).

(** class Scene; [scene_engine] is true when this.engine is set. *)
Record Scene := mkScene {
  scene_engine : bool;
  scene_gameObjects : list ref;
  scene_kind : SceneKind
}.

(** this.mouse of the engine *)
Record Mouse := mkMouse {
  mouse_x : Q;
  mouse_y : Q;
  mouse_clicked : bool
}.

(** class GameEngine (the CG overlay system is DOM only and left out). *)
Record GameEngine := mkGameEngine {
  width : Q;
  height : Q;
  currentScene : option ref;
  scenes : gmap string ref;
  gameObjects : list ref;
  isRunning : bool;
  lastTime : Q;
  keys : gmap string bool;
  mouse : Mouse;
  eventSystem : EventSystem;
  inventory : Inventory
}.

(** The engine together with the store of the objects it refers to;
    [nextRef] is the next reference that [new] hands out. *)
Record World := mkWorld {
  engine : GameEngine;
  objects : gmap ref GameObject;
  sceneStore : gmap ref Scene;
  nextRef : ref
}.

(** *** Field updates *)

Definition set_currentScene (v : option ref) (e : GameEngine) : GameEngine :=
  mkGameEngine (width e) (height e) v (scenes e) (gameObjects e)
    (isRunning e) (lastTime e) (keys e) (mouse e) (eventSystem e) (inventory e).
Definition set_scenes (v : gmap string ref) (e : GameEngine) : GameEngine :=
  mkGameEngine (width e) (height e) (currentScene e) v (gameObjects e)
    (isRunning e) (lastTime e) (keys e) (mouse e) (eventSystem e) (inventory e).
Definition set_gameObjects (v : list ref) (e : GameEngine) : GameEngine :=
  mkGameEngine (width e) (height e) (currentScene e) (scenes e) v
    (isRunning e) (lastTime e) (keys e) (mouse e) (eventSystem e) (inventory e).
Definition set_isRunning (v : bool) (e : GameEngine) : GameEngine :=
  mkGameEngine (width e) (height e) (currentScene e) (scenes e) (gameObjects e)
    v (lastTime e) (keys e) (mouse e) (eventSystem e) (inventory e).
Definition set_lastTime (v : Q) (e : GameEngine) : GameEngine :=
  mkGameEngine (width e) (height e) (currentScene e) (scenes e) (gameObjects e)
    (isRunning e) v (keys e) (mouse e) (eventSystem e) (inventory e).
Definition set_keys (v : gmap string bool) (e : GameEngine) : GameEngine :=
  mkGameEngine (width e) (height e) (currentScene e) (scenes e) (gameObjects e)
    (isRunning e) (lastTime e) v (mouse e) (eventSystem e) (inventory e).
Definition set_mouse (v : Mouse) (e : GameEngine) : GameEngine :=
  mkGameEngine (width e) (height e) (currentScene e) (scenes e) (gameObjects e)
    (isRunning e) (lastTime e) (keys e) v (eventSystem e) (inventory e).
Definition set_eventSystem (v : EventSystem) (e : GameEngine) : GameEngine :=
  mkGameEngine (width e) (height e) (currentScene e) (scenes e) (gameObjects e)
    (isRunning e) (lastTime e) (keys e) (mouse e) v (inventory e).
Definition set_inventory (v : Inventory) (e : GameEngine) : GameEngine :=
  mkGameEngine (width e) (height e) (currentScene e) (scenes e) (gameObjects e)
    (isRunning e) (lastTime e) (keys e) (mouse e) (eventSystem e) v.

Definition set_engine (e : GameEngine) (w : World) : World :=
  mkWorld e (objects w) (sceneStore w) (nextRef w).
Definition set_objects (v : gmap ref GameObject) (w : World) : World :=
  mkWorld (engine w) v (sceneStore w) (nextRef w).
Definition set_sceneStore (v : gmap ref Scene) (w : World) : World :=
  mkWorld (engine w) (objects w) v (nextRef w).

Definition set_position (x y : Q) (o : GameObject) : GameObject :=
  mkGameObject x y (obj_width o) (obj_height o) (obj_visible o)
    (obj_engine o) (obj_kind o).
Definition set_obj_engine (v : bool) (o : GameObject) : GameObject :=
  mkGameObject (obj_x o) (obj_y o) (obj_width o) (obj_height o)
    (obj_visible o) v (obj_kind o).
Definition set_obj_kind (k : ObjKind) (o : GameObject) : GameObject :=
  mkGameObject (obj_x o) (obj_y o) (obj_width o) (obj_height o)
    (obj_visible o) (obj_engine o) k.

Definition set_scene_engine (v : bool) (s : Scene) : Scene :=
  mkScene v (scene_gameObjects s) (scene_kind s).
Definition set_scene_gameObjects (v : list ref) (s : Scene) : Scene :=
  mkScene (scene_engine s) v (scene_kind s).
Definition set_scene_kind (k : SceneKind) (s : Scene) : Scene :=
  mkScene (scene_engine s) (scene_gameObjects s) k.

(** ** Effects: state, trace and exceptions *)

(** A method either returns or throws; both leave a world and the calls
    made so far. *)
Inductive outcome (A : Type) : Type :=
| Return (a : A) (w : World) (tr : list effect)
| Throw (w : World) (tr : list effect).
Arguments Return {A} a w tr.
Arguments Throw {A} w tr.

Definition M (A : Type) : Type := World -> outcome A.

Definition ret {A} (a : A) : M A := fun w => Return a w [].

Definition bind {A B} (m : M A) (k : A -> M B) : M B := fun w =>
  match m w with
  | Return a w1 t1 =>
      match k a w1 with
      | Return b w2 t2 => Return b w2 (t1 ++ t2)
      | Throw w2 t2 => Throw w2 (t1 ++ t2)
      end
  | Throw w1 t1 => Throw w1 t1
  end.

#[export] Instance M_ret : MRet M := @ret.
#[export] Instance M_bind : MBind M := fun A B k m => bind m k.

Definition get : M World := fun w => Return w w [].
Definition modify (f : World -> World) : M unit := fun w => Return tt (f w) [].
Definition tell (tr : list effect) : M unit := fun w => Return tt w tr.
Definition throw {A} : M A := fun w => Throw w [].

(** [l.forEach(f)] *)
Fixpoint forEach {A} (l : list A) (f : A -> M unit) : M unit :=
  match l with
  | [] => mret tt
  | a :: l' => f a ;; forEach l' f
  end.

Definition modify_engine (f : GameEngine -> GameEngine) : M unit :=
  modify (fun w => set_engine (f (engine w)) w).
Definition modify_object (r : ref) (f : GameObject -> GameObject) : M unit :=
  modify (fun w => set_objects (alter f r (objects w)) w).
Definition modify_scene (r : ref) (f : Scene -> Scene) : M unit :=
  modify (fun w => set_sceneStore (alter f r (sceneStore w)) w).

(** [new C(...)]: the fresh object is put in the store. *)
Definition new (o : GameObject) : M ref := fun w =>
  Return (nextRef w)
    (mkWorld (engine w) (<[nextRef w := o]> (objects w)) (sceneStore w)
       (S (nextRef w))) [].

(** A function expression evaluated: a callback never seen before. *)
Definition new_callback : M callback := fun w =>
  Return (nextRef w)
    (mkWorld (engine w) (objects w) (sceneStore w) (S (nextRef w))) [].

(** ** class EventSystem *)

Definition EventSystem_new : EventSystem := ∅.

Definition EventSystem_on (event : string) (cb : callback)
    (es : EventSystem) : EventSystem :=
  let es1 := match es !! event with
             | None => <[event := []]> es
             | Some _ => es
             end in
  <[event := default [] (es1 !! event) ++ [cb]]> es1.

Definition EventSystem_emit (event : string) (data : payload)
    (es : EventSystem) : list effect :=
  match es !! event with
  | Some callbacks => map (fun cb => Called cb data) callbacks
  | None => []
  end.

(** [l.indexOf(x)]; None stands for -1. *)
Fixpoint indexOf (l : list nat) (x : nat) : option nat :=
  match l with
  | [] => None
  | c :: l' => if decide (c = x) then Some 0%nat else S <$> indexOf l' x
  end.

Definition EventSystem_off (event : string) (cb : callback)
    (es : EventSystem) : EventSystem :=
  match es !! event with
  | Some callbacks =>
      match indexOf callbacks cb with
      | Some index => <[event := delete index callbacks]> es
      | None => es
      end
  | None => es
  end.

(** ** class Inventory *)

(** The constructor (its updateUI() call shows the empty panel). *)
Definition Inventory_new : Inventory := mkInventory [] 10.

(** addItem returns its boolean, the inventory and the UI refresh made. *)
Definition Inventory_addItem (item : ItemData) (inv : Inventory)
    : bool * Inventory * list effect :=
  if (length (items inv) <? maxItems inv)%nat then
    let items' := items inv ++ [item] in
    (true, mkInventory items' (maxItems inv), [UpdateUI items'])
  else (false, inv, []).

Definition Inventory_hasItem (itemName : string) (inv : Inventory) : bool :=
  existsb (fun item => String.eqb (name item) itemName) (items inv).

(** ** class GameObject *)

Definition GameObject_new (x y w h : Q) : GameObject :=
  mkGameObject x y w h true false IsGameObject.

Definition GameObject_getBounds (self : GameObject) : Bounds :=
  mkBounds (obj_x self) (obj_y self) (obj_width self) (obj_height self).

Definition GameObject_isColliding (self other : GameObject) : bool :=
  let bounds1 := GameObject_getBounds self in
  let bounds2 := GameObject_getBounds other in
  Qltb (b_x bounds1) (b_x bounds2 + b_width bounds2) &&
  Qltb (b_x bounds2) (b_x bounds1 + b_width bounds1) &&
  Qltb (b_y bounds1) (b_y bounds2 + b_height bounds2) &&
  Qltb (b_y bounds2) (b_y bounds1 + b_height bounds1).

(** ** class Player *)

Definition Player_new (x y : Q) : GameObject :=
  mkGameObject x y 32 32 true false (IsPlayer 200 (mkDirection 0 0)).

(** [keys[code]] as a condition: a missing key is undefined, so false. *)
Definition pressed (ks : gmap string bool) (code : string) : bool :=
  default false (ks !! code).

(** The direction read from the keys; (0, 0) when this.engine is null. *)
Definition Player_direction (e : option GameEngine) : Direction :=
  match e with
  | None => mkDirection 0 0
  | Some e =>
      let dx := if pressed (keys e) "ArrowLeft" || pressed (keys e) "KeyA"
                then -1 else 0 in
      let dx := if pressed (keys e) "ArrowRight" || pressed (keys e) "KeyD"
                then 1 else dx in
      let dy := if pressed (keys e) "ArrowUp" || pressed (keys e) "KeyW"
                then -1 else 0 in
      let dy := if pressed (keys e) "ArrowDown" || pressed (keys e) "KeyS"
                then 1 else dy in
      mkDirection dx dy
  end.

(** The diagonal is scaled by 0.707. *)
Definition Player_normalize (d : Direction) : Direction :=
  if negb (Qeq_bool (dir_x d) 0) && negb (Qeq_bool (dir_y d) 0)
  then mkDirection (dir_x d * 0.707) (dir_y d * 0.707)
  else d.

(** The first part of Player.update: direction, normalisation and
    position += direction * speed * deltaTime / 1000. *)
Definition Player_move (e : option GameEngine) (deltaTime : Q)
    (self : GameObject) : GameObject :=
  match obj_kind self with
  | IsPlayer speed _ =>
      let d := Player_normalize (Player_direction e) in
      mkGameObject
        (obj_x self + dir_x d * speed * deltaTime / 1000)
        (obj_y self + dir_y d * speed * deltaTime / 1000)
        (obj_width self) (obj_height self) (obj_visible self)
        (obj_engine self) (IsPlayer speed d)
  | _ => self
  end.

(** The last part of Player.update: the position is brought back into
    the surface. *)
Definition Player_clamp (e : GameEngine) (self : GameObject) : GameObject :=
  set_position
    (Math_max 0 (Math_min (obj_x self) (width e - obj_width self)))
    (Math_max 0 (Math_min (obj_y self) (height e - obj_height self)))
    self.

(** Player.update(deltaTime): with this.engine null the keys are skipped
    and reading this.engine.width throws, after the position was
    written. *)
Definition Player_update (self : ref) (deltaTime : Q) : M unit :=
  w ← get;
  match objects w !! self with
  | Some o =>
      let e := if obj_engine o then Some (engine w) else None in
      modify_object self (Player_move e deltaTime) ;;
      match e with
      | Some e => modify_object self (Player_clamp e)
      | None => throw
      end
  | None => mret tt
  end.

(** ** class Item *)

Definition Item_new (x y : Q) (data : ItemData) : GameObject :=
  mkGameObject x y 24 24 true false (IsItem data false false).

(** The hover test of Item.update. *)
Definition Item_hover (m : Mouse) (self : GameObject) : bool :=
  Qleb (obj_x self) (mouse_x m) &&
  Qleb (mouse_x m) (obj_x self + obj_width self) &&
  Qleb (obj_y self) (mouse_y m) &&
  Qleb (mouse_y m) (obj_y self + obj_height self).

(** A string used as a condition: undefined and the empty string are
    false. *)
Definition truthy (s : option string) : bool :=
  match s with
  | Some t => negb (String.eqb t "")
  | None => false
  end.

(** [this.collected = v] and [this.hovered = v] of an Item. *)
Definition Item_set_collected (v : bool) (o : GameObject) : GameObject :=
  match obj_kind o with
  | IsItem data _ hovered => set_obj_kind (IsItem data v hovered) o
  | _ => o
  end.
Definition Item_set_hovered (v : bool) (o : GameObject) : GameObject :=
  match obj_kind o with
  | IsItem data collected _ => set_obj_kind (IsItem data collected v) o
  | _ => o
  end.

Definition Item_collect (self : ref) : M unit :=
  w ← get;
  match objects w !! self with
  | Some o =>
      match obj_kind o with
      | IsItem data collected hovered =>
          if collected then mret tt
          else
            modify_object self (Item_set_collected true) ;;
            if obj_engine o then
              let '(success, inv, ui) :=
                Inventory_addItem data (inventory (engine w)) in
              modify_engine (set_inventory inv) ;;
              tell ui ;;
              if success then
                tell (EventSystem_emit "itemCollected" (ItemPayload data)
                        (eventSystem (engine w))) ;;
                if truthy (dialogue data)
                then tell [ShowDialogue (default "" (dialogue data))]
                else mret tt
              else mret tt
            else mret tt
      | _ => mret tt
      end
  | None => mret tt
  end.

Definition Item_update (self : ref) (deltaTime : Q) : M unit :=
  w ← get;
  match objects w !! self with
  | Some o =>
      match obj_kind o with
      | IsItem data collected hovered =>
          if collected then mret tt
          else
            let hovered' :=
              if obj_engine o then Item_hover (mouse (engine w)) o
              else hovered in
            modify_object self (Item_set_hovered hovered') ;;
            if hovered' && obj_engine o && mouse_clicked (mouse (engine w))
            then Item_collect self
            else mret tt
      | _ => mret tt
      end
  | None => mret tt
  end.

(** [if (obj.update) obj.update(deltaTime)]: the call is recorded and
    dispatched on the class of the object.  A reference that is not in
    the store stands for a value without an update method. *)
Definition GameObject_update (obj : ref) (deltaTime : Q) : M unit :=
  w ← get;
  match objects w !! obj with
  | Some o =>
      tell [ObjUpdate obj deltaTime] ;;
      match obj_kind o with
      | IsGameObject => mret tt
      | IsPlayer _ _ => Player_update obj deltaTime
      | IsItem _ _ _ => Item_update obj deltaTime
      end
  | None => mret tt
  end.

(** ** class GameEngine and class Scene *)

Definition GameEngine_new (w h : Q) : GameEngine :=
  mkGameEngine w h None ∅ [] false 0 ∅ (mkMouse 0 0 false)
    EventSystem_new Inventory_new.

Definition GameEngine_addGameObject (obj : ref) : M unit :=
  modify_engine (fun e => set_gameObjects (gameObjects e ++ [obj]) e) ;;
  modify_object obj (set_obj_engine true).

Definition GameEngine_removeGameObject (obj : ref) : M unit :=
  w ← get;
  match indexOf (gameObjects (engine w)) obj with
  | Some index =>
      modify_engine (fun e => set_gameObjects (delete index (gameObjects e)) e)
  | None => mret tt
  end.

Definition Scene_new : Scene := mkScene false [] IsScene.

(** Scene.addGameObject(obj); a scene reference outside the store (not a
    Scene) has no such method. *)
Definition Scene_addGameObject (self : ref) (obj : ref) : M unit :=
  w ← get;
  match sceneStore w !! self with
  | Some s =>
      modify_scene self
        (fun s => set_scene_gameObjects (scene_gameObjects s ++ [obj]) s) ;;
      if scene_engine s then GameEngine_addGameObject obj else mret tt
  | None => throw
  end.

(** Scene.update(deltaTime) of the base class. *)
Definition Scene_update (self : ref) (deltaTime : Q) : M unit :=
  w ← get;
  match sceneStore w !! self with
  | Some s =>
      forEach (scene_gameObjects s) (fun obj => GameObject_update obj deltaTime)
  | None => throw
  end.

(** *** class GameScene *)

Definition GameScene_new : Scene := mkScene false [] (IsGameScene None [] false).

Definition key_data : ItemData :=
  mkItemData "神秘鑰匙" (Some "🗝️") "一把古老的鑰匙，散發著神秘的光芒"
    (Some "你獲得了神秘鑰匙！這把鑰匙似乎能開啟某些特殊的門...").
Definition gem_data : ItemData :=
  mkItemData "魔法寶石" (Some "💎") "一顆閃閃發光的魔法寶石"
    (Some "你獲得了魔法寶石！寶石中蘊含著強大的魔法力量。").
Definition potion_data : ItemData :=
  mkItemData "治療藥水" (Some "🧪") "一瓶紅色的治療藥水"
    (Some "你獲得了治療藥水！這瓶藥水可以恢復你的生命值。").
Definition specialItem_data : ItemData :=
  mkItemData "古老卷軸" (Some "📜") "一張古老的魔法卷軸"
    (Some "你獲得了古老卷軸！卷軸上記載著失傳的魔法...").

(** [this.player = v] and [this.items.push(v)] of a GameScene. *)
Definition GameScene_set_player (v : ref) (s : Scene) : Scene :=
  match scene_kind s with
  | IsGameScene _ its cg => set_scene_kind (IsGameScene (Some v) its cg) s
  | IsScene => s
  end.
Definition GameScene_push_item (v : ref) (s : Scene) : Scene :=
  match scene_kind s with
  | IsGameScene p its cg => set_scene_kind (IsGameScene p (its ++ [v]) cg) s
  | IsScene => s
  end.

(** One block of createItems: new Item, addGameObject, items.push. *)
Definition GameScene_createItem (self : ref) (x y : Q) (data : ItemData)
    : M unit :=
  item ← new (Item_new x y data);
  Scene_addGameObject self item ;;
  modify_scene self (GameScene_push_item item).

Definition GameScene_createItems (self : ref) : M unit :=
  GameScene_createItem self 200 150 key_data ;;
  GameScene_createItem self 400 300 gem_data ;;
  GameScene_createItem self 600 200 potion_data ;;
  GameScene_createItem self 300 400 specialItem_data.

(** setupEventListeners: three new closures are subscribed; reading
    this.engine.eventSystem throws when this.engine is null. *)
Definition GameScene_setupEventListeners (self : ref) : M unit :=
  w ← get;
  match sceneStore w !! self with
  | Some s =>
      if scene_engine s then
        cb1 ← new_callback;
        modify_engine (fun e =>
          set_eventSystem (EventSystem_on "itemCollected" cb1 (eventSystem e)) e) ;;
        cb2 ← new_callback;
        modify_engine (fun e =>
          set_eventSystem (EventSystem_on "cgPlayed" cb2 (eventSystem e)) e) ;;
        cb3 ← new_callback;
        modify_engine (fun e =>
          set_eventSystem (EventSystem_on "cgEnded" cb3 (eventSystem e)) e)
      else throw
  | None => throw
  end.

Definition GameScene_init (self : ref) : M unit :=
  player ← new (Player_new 100 100);
  modify_scene self (GameScene_set_player player) ;;
  Scene_addGameObject self player ;;
  GameScene_createItems self ;;
  GameScene_setupEventListeners self.

(** [item.collected] read from outside the item. *)
Definition is_collected (w : World) (item : ref) : bool :=
  match objects w !! item with
  | Some o => match obj_kind o with
              | IsItem _ collected _ => collected
              | _ => false
              end
  | None => false
  end.

(** GameScene.update: super.update, then the scan of the items; the body
    of its condition is empty, but this.player.isColliding is evaluated
    for every uncollected item and throws when this.player is null. *)
Definition GameScene_update (self : ref) (deltaTime : Q) : M unit :=
  Scene_update self deltaTime ;;
  w ← get;
  match sceneStore w !! self with
  | Some s =>
      match scene_kind s with
      | IsGameScene player its _ =>
          forEach its (fun item =>
            w ← get;
            if negb (is_collected w item) then
              match player with
              | Some _ => mret tt
              | None => throw
              end
            else mret tt)
      | IsScene => mret tt
      end
  | None => throw
  end.

(** [scene.init()], recorded and dispatched on the class of the scene. *)
Definition Scene_init (self : ref) : M unit :=
  w ← get;
  match sceneStore w !! self with
  | Some s =>
      tell [Init self] ;;
      match scene_kind s with
      | IsScene => mret tt
      | IsGameScene _ _ _ => GameScene_init self
      end
  | None => throw
  end.

(** [scene.update(deltaTime)], dispatched on the class of the scene. *)
Definition Scene_update_dispatch (self : ref) (deltaTime : Q) : M unit :=
  w ← get;
  match sceneStore w !! self with
  | Some s =>
      match scene_kind s with
      | IsScene => Scene_update self deltaTime
      | IsGameScene _ _ _ => GameScene_update self deltaTime
      end
  | None => throw
  end.

(** *** The methods of the engine *)

Definition GameEngine_addScene (name : string) (scene : ref) : M unit :=
  modify_engine (fun e => set_scenes (<[name := scene]> (scenes e)) e) ;;
  modify_scene scene (set_scene_engine true).

Definition GameEngine_setScene (name : string) : M unit :=
  w ← get;
  match scenes (engine w) !! name with
  | Some s =>
      modify_engine (set_currentScene (Some s)) ;;
      Scene_init s
  | None => mret tt
  end.

Definition GameEngine_update (deltaTime : Q) : M unit :=
  tell [EngineUpdate deltaTime] ;;
  w ← get;
  match currentScene (engine w) with
  | Some s => Scene_update_dispatch s deltaTime
  | None => mret tt
  end ;;
  w ← get;
  forEach (gameObjects (engine w))
    (fun obj => GameObject_update obj deltaTime) ;;
  modify_engine (fun e =>
    set_mouse (mkMouse (mouse_x (mouse e)) (mouse_y (mouse e)) false) e).

(** render() only draws on the surface: no state of the model changes. *)
Definition GameEngine_render : M unit := tell [EngineRender].

Definition GameEngine_gameLoop (currentTime : Q) : M unit :=
  w ← get;
  if negb (isRunning (engine w)) then mret tt
  else
    let deltaTime := currentTime - lastTime (engine w) in
    modify_engine (set_lastTime currentTime) ;;
    GameEngine_update deltaTime ;;
    GameEngine_render ;;
    tell [RequestAnimationFrame].

(** start(); [now] is the value of performance.now(). *)
Definition GameEngine_start (now : Q) : M unit :=
  modify_engine (set_isRunning true) ;;
  modify_engine (set_lastTime now) ;;
  GameEngine_gameLoop now.

Definition GameEngine_stop : M unit := modify_engine (set_isRunning false).

(** The listeners of setupEventListeners. *)
Definition GameEngine_keydown (code : string) : M unit :=
  modify_engine (fun e => set_keys (<[code := true]> (keys e)) e) ;;
  w ← get;
  tell (EventSystem_emit "keydown" (KeyPayload code) (eventSystem (engine w))).

Definition GameEngine_keyup (code : string) : M unit :=
  modify_engine (fun e => set_keys (<[code := false]> (keys e)) e) ;;
  w ← get;
  tell (EventSystem_emit "keyup" (KeyPayload code) (eventSystem (engine w))).

(** mousemove; [x], [y] are already relative to the canvas. *)
Definition GameEngine_mousemove (x y : Q) : M unit :=
  modify_engine (fun e => set_mouse (mkMouse x y (mouse_clicked (mouse e))) e).

Definition GameEngine_click : M unit :=
  modify_engine (fun e =>
    set_mouse (mkMouse (mouse_x (mouse e)) (mouse_y (mouse e)) true) e) ;;
  w ← get;
  tell (EventSystem_emit "click"
          (ClickPayload (mouse_x (mouse (engine w))) (mouse_y (mouse (engine w))))
          (eventSystem (engine w))).

(** ** Reading traces *)

(** How many times [obj.update] was called in a trace. *)
Fixpoint updateCalls (obj : ref) (tr : list effect) : nat :=
  match tr with
  | [] => 0%nat
  | ObjUpdate r _ :: tr' =>
      ((if decide (r = obj) then 1 else 0) + updateCalls obj tr')%nat
  | _ :: tr' => updateCalls obj tr'
  end.

(** How many times [scene.init] was called in a trace. *)
Fixpoint initCalls (scene : ref) (tr : list effect) : nat :=
  match tr with
  | [] => 0%nat
  | Init r :: tr' =>
      ((if decide (r = scene) then 1 else 0) + initCalls scene tr')%nat
  | _ :: tr' => initCalls scene tr'
  end.

(** ** The game as index.html starts it *)

(** initGame: the engine, one GameScene registered as 'game'. *)
Definition game_scene : ref := 0%nat.
Definition initGame (w h : Q) : World :=
  match GameEngine_addScene "game" game_scene
          (mkWorld (GameEngine_new w h) ∅ {[ game_scene := GameScene_new ]} 1%nat)
  with
  | Return _ w' _ => w'
  | Throw w' _ => w'
  end.

(** GameMenu.startGame: setScene('game') then start(). *)
Definition startGame (now : Q) : M unit :=
  GameEngine_setScene "game" ;;
  GameEngine_start now.

(** ** Reading outcomes *)

Definition world_of {A} (o : outcome A) : World :=
  match o with
  | Return _ w _ => w
  | Throw w _ => w
  end.

Definition trace_of {A} (o : outcome A) : list effect :=
  match o with
  | Return _ _ tr => tr
  | Throw _ tr => tr
  end.

Definition returns {A} (o : outcome A) : bool :=
  match o with
  | Return _ _ _ => true
  | Throw _ _ => false
  end.

(** The outcome of a method that runs after the calls [tr] were made. *)
Definition after_calls {A} (tr : list effect) (o : outcome A) : outcome A :=
  match o with
  | Return a w t => Return a w (tr ++ t)
  | Throw w t => Throw w (tr ++ t)
  end.

(** [item.hovered] read from outside the item. *)
Definition is_hovered (w : World) (item : ref) : bool :=
  match objects w !! item with
  | Some o => match obj_kind o with
              | IsItem _ _ hovered => hovered
              | _ => false
              end
  | None => false
  end.

(** ** The event bus as its users see it *)

(** What a client of the bus can do to its subscriptions. *)
Inductive bus_op :=
| Subscribe (event : string) (cb : callback)
| Unsubscribe (event : string) (cb : callback).

Definition apply_op (es : EventSystem) (o : bus_op) : EventSystem :=
  match o with
  | Subscribe event cb => EventSystem_on event cb es
  | Unsubscribe event cb => EventSystem_off event cb es
  end.

(** The bus after a history of subscriptions, from [es]. *)
Definition bus_after (ops : list bus_op) (es : EventSystem) : EventSystem :=
  fold_left apply_op ops es.

(** The first occurrence of [cb] removed. *)
Fixpoint remove_first (cb : callback) (l : list callback) : list callback :=
  match l with
  | [] => []
  | c :: l' => if decide (c = cb) then l' else c :: remove_first cb l'
  end.

(** The subscribers of [event] as the specification describes them: a
    subscription appends the handler to the channel, an unsubscription
    removes its first occurrence, other channels do not matter. *)
Definition spec_step (event : string) (l : list callback) (o : bus_op)
    : list callback :=
  match o with
  | Subscribe e cb => if decide (e = event) then l ++ [cb] else l
  | Unsubscribe e cb => if decide (e = event) then remove_first cb l else l
  end.

Definition spec_subscribers (event : string) (ops : list bus_op)
    (l : list callback) : list callback :=
  fold_left (spec_step event) ops l.

(** The handlers subscribed to [event] in a bus. *)
Definition subscribers (event : string) (es : EventSystem) : list callback :=
  default [] (es !! event).

(** A history that never subscribes [cb] to [event]. *)
Definition never_subscribes (event : string) (cb : callback)
    (ops : list bus_op) : bool :=
  forallb (fun o => match o with
                    | Subscribe e c =>
                        negb (bool_decide (e = event) && bool_decide (c = cb))
                    | Unsubscribe _ _ => true
                    end) ops.

(** ** Several addItem calls in a row *)

(** The booleans returned and the final inventory. *)
Fixpoint Inventory_addItems (l : list ItemData) (inv : Inventory)
    : list bool * Inventory :=
  match l with
  | [] => ([], inv)
  | item :: l' =>
      let '(ok, inv1, _) := Inventory_addItem item inv in
      let '(oks, inv2) := Inventory_addItems l' inv1 in
      (ok :: oks, inv2)
  end.

(** ** Worlds in which a frame can be updated *)

(** A Player in a list must have its engine: Player.update reads
    this.engine.width. *)
Definition attached_if_player (w : World) (r : ref) : bool :=
  match objects w !! r with
  | Some o => match obj_kind o with
              | IsPlayer _ _ => obj_engine o
              | _ => true
              end
  | None => true
  end.

(** A GameScene with items has its player (init sets both). *)
Definition scan_ready (s : Scene) : bool :=
  match scene_kind s with
  | IsGameScene None (_ :: _) _ => false
  | _ => true
  end.

Definition can_update (w : World) : bool :=
  forallb (attached_if_player w) (gameObjects (engine w)) &&
  match currentScene (engine w) with
  | None => true
  | Some s =>
      match sceneStore w !! s with
      | Some sc =>
          forallb (attached_if_player w) (scene_gameObjects sc) && scan_ready sc
      | None => false
      end
  end.

(** The number of times [obj] occurs in a list of references. *)
Definition occurrences (obj : ref) (l : list ref) : nat :=
  length (filter (fun r => r = obj) l).

(** ** What a method leaves unchanged *)

(** A relation between the world before a method, the world after it
    and the calls it made, that holds when nothing happens and that
    composes along a sequence of steps. *)
Class Compositional (P : World -> World -> list effect -> Prop) : Prop := {
  comp_refl : forall w, P w w [];
  comp_trans : forall w1 w2 w3 t1 t2,
      P w1 w2 t1 -> P w2 w3 t2 -> P w1 w3 (t1 ++ t2)
}.

(** The method [m] satisfies [P] from every world, whether it returns
    or throws. *)
Definition sat {A} (P : World -> World -> list effect -> Prop) (m : M A)
    : Prop :=
  forall w, P w (world_of (m w)) (trace_of (m w)).

(** Two objects of the same class. *)
Definition same_class (k k' : ObjKind) : bool :=
  match k, k' with
  | IsGameObject, IsGameObject => true
  | IsPlayer _ _, IsPlayer _ _ => true
  | IsItem _ _ _, IsItem _ _ _ => true
  | _, _ => false
  end.

(** The same slot of the store before and after: present or absent in
    both, with the same class and the same engine. *)
Definition same_shape (o o' : option GameObject) : Prop :=
  match o, o' with
  | Some a, Some b =>
      obj_engine a = obj_engine b /\ same_class (obj_kind a) (obj_kind b) = true
  | None, None => True
  | _, _ => False
  end.

(** What the update of a frame never touches: the scenes, the lists, the
    clock and the class and engine of every object. *)
Record frame (w w' : World) : Prop := mkFrame {
  frame_sceneStore : sceneStore w' = sceneStore w;
  frame_nextRef : nextRef w' = nextRef w;
  frame_gameObjects : gameObjects (engine w') = gameObjects (engine w);
  frame_currentScene : currentScene (engine w') = currentScene (engine w);
  frame_scenes : scenes (engine w') = scenes (engine w);
  frame_isRunning : isRunning (engine w') = isRunning (engine w);
  frame_lastTime : lastTime (engine w') = lastTime (engine w);
  frame_eventSystem : eventSystem (engine w') = eventSystem (engine w);
  frame_objects : forall r, same_shape (objects w !! r) (objects w' !! r)
}.

(** The calls made by the update hooks of the objects themselves. *)
Definition hook_effect (e : effect) : Prop :=
  match e with
  | Called _ _ | UpdateUI _ | ShowDialogue _ => True
  | _ => False
  end.

(** The calls made while the objects of a frame are updated. *)
Definition update_effect (e : effect) : Prop :=
  match e with
  | ObjUpdate _ _ | Called _ _ | UpdateUI _ | ShowDialogue _ => True
  | _ => False
  end.

(** An update hook: the frame is kept and only hook calls are made. *)
Definition hook_frame (w w' : World) (tr : list effect) : Prop :=
  frame w w' /\ Forall hook_effect tr.

(** What init() and the registration methods do not do: they make no
    observable call and leave the active scene alone. *)
Definition silent (w w' : World) (tr : list effect) : Prop :=
  currentScene (engine w') = currentScene (engine w) /\ tr = [].

(** The update of the objects of a frame: the frame is kept and only
    update calls and hook calls are made. *)
Definition update_frame (w w' : World) (tr : list effect) : Prop :=
  frame w w' /\ Forall update_effect tr.

(** The objects of the active scene, which a frame updates first. *)
Definition active_scene_objects (w : World) : list ref :=
  match currentScene (engine w) with
  | Some s =>
      match sceneStore w !! s with
      | Some sc => scene_gameObjects sc
      | None => []
      end
  | None => []
  end.

(** The arguments of the calls of engine.update in a trace. *)
Fixpoint updateArgs (tr : list effect) : list Q :=
  match tr with
  | [] => []
  | EngineUpdate dt :: tr' => dt :: updateArgs tr'
  | _ :: tr' => updateArgs tr'
  end.

(** ** Some states of the game *)

(** The game on an 800x600 canvas after GameMenu.startGame at time [now]:
    the scene 'game' is active and the first frame has run. *)
Definition started_game (now : Q) : World :=
  world_of (startGame now (initGame 800 600)).

(** GameMenu.loadGame restoring a save: inventory.items = data.inventory,
    then inventory.updateUI(). *)
Definition loadInventory (saved : list ItemData) : M unit :=
  modify_engine (fun e =>
    set_inventory (mkInventory saved (maxItems (inventory e))) e) ;;
  tell [UpdateUI saved].

(** A save with ten gems is loaded, then the pointer is moved over the
    key (the item at 200,150, reference 2) and the button is clicked. *)
Definition full_inventory_click : World :=
  world_of ((loadInventory (repeat gem_data 10) ;;
             GameEngine_mousemove 210 160 ;;
             GameEngine_click) (started_game 0)).

(** The pointer on the lower right corner of the key. *)
Definition pointer_on_corner : World :=
  world_of (GameEngine_mousemove 224 174 (started_game 0)).

(** Right and down are held. *)
Definition diagonal_keys : World :=
  world_of ((GameEngine_keydown "ArrowRight" ;;
             GameEngine_keydown "ArrowDown") (started_game 0)).

(** A plain object is created, not registered yet (it gets reference 9). *)
Definition with_new_object : World :=
  world_of (new (GameObject_new 0 0 10 10) (started_game 0)).

(** The object behind a reference. *)
Definition object_at (w : World) (r : ref) : GameObject :=
  default (GameObject_new 0 0 0 0) (objects w !! r).

(** The scene behind a reference. *)
Definition scene_at (w : World) (r : ref) : Scene :=
  default Scene_new (sceneStore w !! r).

(** An assignment to fields of an object that are not its class or its
    engine. *)
Definition keeps_shape (f : GameObject -> GameObject) : Prop :=
  forall o, obj_engine o = obj_engine (f o) /\
            same_class (obj_kind o) (obj_kind (f o)) = true.

(** ** More of the engine *)


(** A history on channels other than [event]. *)
Definition other_channels (event : string) (ops : list bus_op) : bool :=
  forallb (fun o => match o with
                    | Subscribe e _ | Unsubscribe e _ =>
                        negb (bool_decide (e = event))
                    end) ops.

(** Several ticks of the loop in a row, at the given times. *)
Definition GameEngine_ticks (times : list Q) : M unit :=
  forEach times GameEngine_gameLoop.

(** How many times the callback [cb] is called in a trace. *)
Fixpoint callCount (cb : callback) (tr : list effect) : nat :=
  match tr with
  | [] => 0%nat
  | Called c _ :: tr' =>
      ((if decide (c = cb) then 1 else 0) + callCount cb tr')%nat
  | _ :: tr' => callCount cb tr'
  end.

(** What no update hook does: the pointer is left alone, a collected
    item stays collected, and the inventory is only extended at its end,
    within its capacity. *)
Definition update_keeps (w w' : World) (tr : list effect) : Prop :=
  mouse (engine w') = mouse (engine w) /\
  (forall r, is_collected w r = true -> is_collected w' r = true) /\
  items (inventory (engine w)) `prefix_of` items (inventory (engine w')) /\
  maxItems (inventory (engine w')) = maxItems (inventory (engine w)) /\
  ((length (items (inventory (engine w))) <= maxItems (inventory (engine w)))%nat ->
   (length (items (inventory (engine w'))) <= maxItems (inventory (engine w')))%nat).

(** [m] run [n] times. *)
Fixpoint repeatM (n : nat) (m : M unit) : M unit :=
  match n with
  | O => mret tt
  | S n' => m ;; repeatM n' m
  end.

(** The references [n], [n+1], ..., handed out by [count] calls of new. *)
Definition fresh_refs (n : ref) (count : nat) : list ref := seq n count.

(** Every reference of a list was handed out already. *)
Definition allocated (w : World) (l : list ref) : bool :=
  forallb (fun r => r <? nextRef w)%nat l.

(** The collected flag of an object (false for what is not an Item). *)
Definition collected_flag (o : GameObject) : bool :=
  match obj_kind o with
  | IsItem _ collected _ => collected
  | _ => false
  end.

(** What init() and the registration methods keep: the registry of the
    scenes and the active scene, and they make no observable call. *)
Definition registry_kept (w w' : World) (tr : list effect) : Prop :=
  scenes (engine w') = scenes (engine w) /\
  currentScene (engine w') = currentScene (engine w) /\
  tr = [].

(** ** class CGSystem *)

(** The cgData literal handed to playCG. *)
Record CGData := mkCGData {
  cg_title : option string;
  cg_image : string;
  cg_dialogue : option string;
  cg_duration : option Q
}.

Record CGSystem := mkCGSystem {
  isPlaying : bool;
  currentCG : option CGData
}.

(** The CG system together with the .cg-overlay elements of the
    document, in document order (each stands for the CG it shows). *)
Record CGPage := mkCGPage {
  cgSystem : CGSystem;
  overlays : list CGData
}.

(** The calls the CG system makes outside the page. *)
Inductive cg_effect :=
| SetTimeout (ms : Q)                               (* setTimeout(() => this.closeCG(), ms) *)
| CGCalled (cb : callback) (data : option CGData).  (* callback(data); None is null *)

Definition CGSystem_new : CGSystem := mkCGSystem false None.
Definition CGPage_new : CGPage := mkCGPage CGSystem_new [].

(** A number used as a condition: undefined and 0 are false. *)
Definition truthy_number (d : option Q) : bool :=
  match d with
  | Some q => negb (Qeq_bool q 0)
  | None => false
  end.

(** [if (window.gameEngine) window.gameEngine.eventSystem.emit(event,
    data)]: [bus] is the event system of window.gameEngine, None while
    window.gameEngine is not set. *)
Definition cg_emit (event : string) (data : option CGData)
    (bus : option EventSystem) : list cg_effect :=
  match bus with
  | Some es => map (fun cb => CGCalled cb data) (subscribers event es)
  | None => []
  end.

Definition CGSystem_playCG (cgData : CGData) (bus : option EventSystem)
    (page : CGPage) : CGPage * list cg_effect :=
  if isPlaying (cgSystem page) then (page, [])
  else
    (mkCGPage (mkCGSystem true (Some cgData)) (overlays page ++ [cgData]),
     (if truthy_number (cg_duration cgData)
      then [SetTimeout (default 0 (cg_duration cgData))] else []) ++
     cg_emit "cgPlayed" (Some cgData) bus).

(** closeCG removes the first overlay of the document, if any, clears
    the slot and then publishes this.currentCG, which it has just
    cleared. *)
Definition CGSystem_closeCG (bus : option EventSystem) (page : CGPage)
    : CGPage * list cg_effect :=
  let overlays' := match overlays page with
                   | [] => []
                   | _ :: rest => rest
                   end in
  let cg := mkCGSystem false None in
  (mkCGPage cg overlays', cg_emit "cgEnded" (currentCG cg) bus).

(** What happens to the CG system: a request or a dismissal (the close
    button or the timer of some earlier CG). *)
Inductive cg_op :=
| PlayCG (cgData : CGData)
| CloseCG.

Definition cg_step (bus : option EventSystem) (page : CGPage) (op : cg_op)
    : CGPage :=
  match op with
  | PlayCG cgData => (CGSystem_playCG cgData bus page).1
  | CloseCG => (CGSystem_closeCG bus page).1
  end.

(** The page after a history of requests and dismissals. *)
Definition cg_history (bus : option EventSystem) (ops : list cg_op)
    (page : CGPage) : CGPage :=
  fold_left (cg_step bus) ops page.

(** The overlays of the document are exactly the CG in the slot, and
    isPlaying says whether the slot is taken. *)
Definition cg_consistent (page : CGPage) : Prop :=
  overlays page = option_list (currentCG (cgSystem page)) /\
  isPlaying (cgSystem page) = bool_decide (is_Some (currentCG (cgSystem page))).

(** ** class GameMenu *)

(** The menu: this.visible and the variable currentButtonIndex that the
    listener of setupKeyboardNavigation closes over. *)
Record GameMenu := mkGameMenu {
  menu_visible : bool;
  currentButtonIndex : Z
}.

(** this.buttons, by the ids of buttonConfigs. *)
Definition menu_buttons : list string :=
  ["startGame"; "loadGame"; "settings"; "exitGame"].

Definition GameMenu_new : GameMenu := mkGameMenu true 0.

(** this.buttons[i] *)
Definition button_at (i : Z) : option string :=
  if (i <? 0)%Z then None else menu_buttons !! Z.to_nat i.

(** What a key did in the menu. *)
Inductive key_result :=
| KeyIgnored
| Highlighted (index : Z)
| ButtonClicked (id : string)
| KeyTypeError.

(** The keydown listener of setupKeyboardNavigation; [%] is the
    remainder of JavaScript, [Z.rem]. *)
Definition GameMenu_keydown (code : string) (m : GameMenu)
    : GameMenu * key_result :=
  let n := Z.of_nat (length menu_buttons) in
  if negb (menu_visible m) then (m, KeyIgnored)
  else if String.eqb code "ArrowUp" then
    let i := Z.rem (currentButtonIndex m - 1 + n) n in
    (mkGameMenu (menu_visible m) i, Highlighted i)
  else if String.eqb code "ArrowDown" then
    let i := Z.rem (currentButtonIndex m + 1) n in
    (mkGameMenu (menu_visible m) i, Highlighted i)
  else if String.eqb code "Enter" || String.eqb code "Space" then
    (m, match button_at (currentButtonIndex m) with
        | Some id => ButtonClicked id
        | None => KeyTypeError
        end)
  else (m, KeyIgnored).

Definition GameMenu_hide (m : GameMenu) : GameMenu :=
  mkGameMenu false (currentButtonIndex m).

(** show() also stops the engine. *)
Definition GameMenu_show (m : GameMenu) : M GameMenu :=
  GameEngine_stop ;;
  mret (mkGameMenu true (currentButtonIndex m)).

Definition GameMenu_toggle (m : GameMenu) : M GameMenu :=
  if menu_visible m then mret (GameMenu_hide m) else GameMenu_show m.

(** The keydown listener that GameEngineWithMenu adds: Escape shows the
    menu when it is hidden. *)
Definition GameEngineWithMenu_keydown (code : string) (m : GameMenu)
    : M GameMenu :=
  if String.eqb code "Escape" && negb (menu_visible m)
  then GameMenu_show m
  else mret m.

(** What happens to the menu: a key goes to the listener of
    setupKeyboardNavigation, or something sets this.visible (show, hide,
    the actions of the buttons). *)
Inductive menu_event :=
| MenuKey (code : string)
| MenuVisible (v : bool).

Definition menu_step (m : GameMenu) (ev : menu_event) : GameMenu :=
  match ev with
  | MenuKey code => (GameMenu_keydown code m).1
  | MenuVisible v => mkGameMenu v (currentButtonIndex m)
  end.

(** The menu after a history, from the menu as it is constructed. *)
Definition menu_run (evs : list menu_event) : GameMenu :=
  fold_left menu_step evs GameMenu_new.

(** The Escape key: the keydown listeners of the document in the order
    they were added, the engine's, the menu's navigation and the one of
    GameEngineWithMenu. *)
Definition Escape_pressed (m : GameMenu) : M GameMenu :=
  GameEngine_keydown "Escape" ;;
  GameEngineWithMenu_keydown "Escape" (GameMenu_keydown "Escape" m).1.

(** * Properties *)

(** ** Comparisons *)

Lemma Qleb_iff (a b : Q) : Qleb a b = true <-> a <= b.
Proof. apply Qle_bool_iff. Qed.

Lemma Qltb_iff (a b : Q) : Qltb a b = true <-> a < b.
Proof.
  unfold Qltb. rewrite negb_true_iff.
  split.
  - intros H. apply Qnot_le_lt. intros Hle.
    apply Qle_bool_iff in Hle. congruence.
  - intros H. destruct (Qle_bool b a) eqn:E; [|reflexivity].
    apply Qle_bool_iff in E. exfalso. apply (Qlt_not_le _ _ H E).
Qed.

(** ** Collision *)

Lemma GameObject_isColliding_iff (A B : GameObject) :
  GameObject_isColliding A B = true <->
  (obj_x A < obj_x B + obj_width B /\
   obj_x A + obj_width A > obj_x B /\
   obj_y A < obj_y B + obj_height B /\
   obj_y A + obj_height A > obj_y B).
Proof.
  unfold GameObject_isColliding, GameObject_getBounds. simpl.
  rewrite !andb_true_iff, !Qltb_iff. tauto.
Qed.

Lemma GameObject_isColliding_sym (A B : GameObject) :
  GameObject_isColliding A B = GameObject_isColliding B A.
Proof.
  apply eq_true_iff_eq. rewrite !GameObject_isColliding_iff. tauto.
Qed.

(** C4. isColliding(A, B) is true exactly when the four strict
    inequalities of the bounding-box test hold: A.x < B.x + B.w,
    A.x + A.w > B.x, A.y < B.y + B.h and A.y + A.h > B.y.  Rectangles
    that touch along an edge, A = {0,0,10,10} and B = {10,0,10,10}, do
    not collide; A = {0,0,10,10} and B = {5,5,10,10} do. *)
Theorem isColliding_strict_overlap :
  (forall A B : GameObject,
      GameObject_isColliding A B = true <->
      (obj_x A < obj_x B + obj_width B /\
       obj_x A + obj_width A > obj_x B /\
       obj_y A < obj_y B + obj_height B /\
       obj_y A + obj_height A > obj_y B)) /\
  GameObject_isColliding (GameObject_new 0 0 10 10)
                         (GameObject_new 10 0 10 10) = false /\
  GameObject_isColliding (GameObject_new 0 0 10 10)
                         (GameObject_new 5 5 10 10) = true.
Proof.
  split; [|split; reflexivity].
  intros A B. apply GameObject_isColliding_iff.
Qed.

(** ** Inventory *)

Lemma addItem_below (item : ItemData) (inv : Inventory) :
  (length (items inv) < maxItems inv)%nat ->
  Inventory_addItem item inv =
    (true, mkInventory (items inv ++ [item]) (maxItems inv),
     [UpdateUI (items inv ++ [item])]).
Proof.
  intros H. unfold Inventory_addItem.
  destruct (Nat.ltb_spec (length (items inv)) (maxItems inv)); [reflexivity|lia].
Qed.

Lemma addItem_full (item : ItemData) (inv : Inventory) :
  (maxItems inv <= length (items inv))%nat ->
  Inventory_addItem item inv = (false, inv, []).
Proof.
  intros H. unfold Inventory_addItem.
  destruct (Nat.ltb_spec (length (items inv)) (maxItems inv)); [lia|reflexivity].
Qed.

Lemma addItems_fit (l : list ItemData) (inv : Inventory) :
  (length (items inv) + length l <= maxItems inv)%nat ->
  Inventory_addItems l inv =
    (repeat true (length l), mkInventory (items inv ++ l) (maxItems inv)).
Proof.
  revert inv. induction l as [|item l IH]; intros inv H; simpl in *.
  - rewrite app_nil_r. destruct inv; reflexivity.
  - rewrite addItem_below by lia.
    rewrite IH; simpl; [|rewrite length_app; simpl; lia].
    by rewrite <- app_assoc.
Qed.

(** C8. With capacity 10, addItem returns true and appends the item
    (refreshing the panel) exactly when the inventory holds fewer than 10
    items, and otherwise returns false and changes nothing.  From the
    empty inventory ten calls in a row all return true; an eleventh call
    returns false and the length stays 10. *)
Theorem addItem_capacity_ten
    (inv : Inventory) (item : ItemData)
    (l : list ItemData) (eleventh : ItemData) :
  maxItems inv = 10%nat ->
  length l = 10%nat ->
  ((Inventory_addItem item inv).1.1 = true <-> (length (items inv) < 10)%nat) /\
  ((length (items inv) < 10)%nat ->
   Inventory_addItem item inv =
     (true, mkInventory (items inv ++ [item]) 10,
      [UpdateUI (items inv ++ [item])])) /\
  (~ (length (items inv) < 10)%nat ->
   Inventory_addItem item inv = (false, inv, [])) /\
  (Inventory_addItems l Inventory_new).1 = repeat true 10 /\
  items (Inventory_addItems l Inventory_new).2 = l /\
  (Inventory_addItem eleventh (Inventory_addItems l Inventory_new).2).1.1
    = false /\
  length
    (items (Inventory_addItem eleventh (Inventory_addItems l Inventory_new).2).1.2)
    = 10%nat.
Proof.
  intros Hmax Hl.
  split; [|split; [|split]].
  - destruct (decide (length (items inv) < 10)%nat) as [Hlt|Hge].
    + rewrite addItem_below by lia. simpl. tauto.
    + rewrite addItem_full by lia. simpl. split; [done|lia].
  - intros Hlt. rewrite addItem_below by lia. by rewrite Hmax.
  - intros Hge. apply addItem_full. lia.
  - rewrite addItems_fit by (simpl; lia). simpl. rewrite Hl.
    rewrite addItem_full by (simpl; lia). simpl. auto.
Qed.

(** ** The event bus *)

Lemma subscribers_on (e e' : string) (cb : callback) (es : EventSystem) :
  subscribers e' (EventSystem_on e cb es) =
    if decide (e = e') then subscribers e es ++ [cb] else subscribers e' es.
Proof.
  unfold subscribers, EventSystem_on.
  destruct (es !! e) as [l|] eqn:E; simpl.
  - rewrite E. simpl. rewrite lookup_insert. by case_decide; subst.
  - rewrite lookup_insert_eq. simpl. rewrite lookup_insert.
    case_decide; subst; [done|]. by rewrite lookup_insert_ne.
Qed.

Lemma indexOf_delete (l : list nat) (x : nat) :
  match indexOf l x with
  | Some i => delete i l
  | None => l
  end = remove_first x l.
Proof.
  induction l as [|c l IH]; simpl; [done|].
  destruct (decide (c = x)); [reflexivity|].
  rewrite <- IH. by destruct (indexOf l x).
Qed.

Lemma subscribers_off (e e' : string) (cb : callback) (es : EventSystem) :
  subscribers e' (EventSystem_off e cb es) =
    if decide (e = e') then remove_first cb (subscribers e es)
    else subscribers e' es.
Proof.
  unfold subscribers, EventSystem_off.
  destruct (es !! e) as [l|] eqn:E; simpl.
  - rewrite <- indexOf_delete.
    destruct (indexOf l cb).
    + rewrite lookup_insert. by case_decide; subst.
    + case_decide; subst; [by rewrite E|done].
  - case_decide; subst; [by rewrite E|done].
Qed.

Lemma emit_subscribers (event : string) (data : payload) (es : EventSystem) :
  EventSystem_emit event data es =
    map (fun cb => Called cb data) (subscribers event es).
Proof.
  unfold EventSystem_emit, subscribers. by destruct (es !! event).
Qed.

Lemma subscribers_apply_op (event : string) (o : bus_op) (es : EventSystem) :
  subscribers event (apply_op es o) = spec_step event (subscribers event es) o.
Proof.
  destruct o as [e cb|e cb]; simpl.
  - rewrite subscribers_on. by case_decide; subst.
  - rewrite subscribers_off. by case_decide; subst.
Qed.

Lemma subscribers_bus_after (event : string) (ops : list bus_op)
    (es : EventSystem) :
  subscribers event (bus_after ops es) =
    spec_subscribers event ops (subscribers event es).
Proof.
  revert es. induction ops as [|o ops IH]; intros es; simpl; [done|].
  unfold bus_after, spec_subscribers in *. simpl.
  by rewrite IH, subscribers_apply_op.
Qed.

Lemma remove_first_snoc (cb : callback) (l : list callback) :
  cb ∉ l -> remove_first cb (l ++ [cb]) = l.
Proof.
  induction l as [|c l IH]; simpl; intros H.
  - by case_decide.
  - apply not_elem_of_cons in H as [Hne Hl].
    case_decide; [congruence|]. by rewrite IH.
Qed.

Lemma remove_first_not_elem (cb c : callback) (l : list callback) :
  cb ∉ l -> cb ∉ remove_first c l.
Proof.
  induction l as [|c' l IH]; simpl; intros H; [done|].
  apply not_elem_of_cons in H as [Hne Hl].
  case_decide; [done|].
  apply not_elem_of_cons. auto.
Qed.

Lemma never_subscribed_stays_out (event : string) (cb : callback)
    (ops : list bus_op) (l : list callback) :
  never_subscribes event cb ops = true ->
  cb ∉ l -> cb ∉ spec_subscribers event ops l.
Proof.
  revert l. induction ops as [|o ops IH]; intros l Hops Hl; simpl in *; [done|].
  apply andb_true_iff in Hops as [Ho Hops].
  apply IH; [done|].
  destruct o as [e c|e c]; simpl.
  - case_decide; [|done]. subst.
    apply negb_true_iff, andb_false_iff in Ho.
    rewrite !bool_decide_eq_false in Ho.
    apply not_elem_of_app. split; [done|].
    apply not_elem_of_cons. split; [|apply not_elem_of_nil].
    destruct Ho; congruence.
  - case_decide; [|done]. by apply remove_first_not_elem.
Qed.

(** C9. After any history of subscriptions and unsubscriptions, emit
    calls exactly the handlers currently subscribed to the channel, in
    subscription order, each with the payload.  On a channel without
    subscribers emit does nothing.  A handler that was not subscribed,
    is subscribed and then unsubscribed is not called by later emits,
    whatever else happens on the bus as long as it is not subscribed
    again. *)
Theorem emit_calls_current_subscribers
    (es : EventSystem) (event : string) (data : payload)
    (ops : list bus_op) :
  EventSystem_emit event data (bus_after ops es) =
    map (fun cb => Called cb data)
        (spec_subscribers event ops (subscribers event es)) /\
  (subscribers event es = [] -> EventSystem_emit event data es = []) /\
  (forall cb : callback,
      cb ∉ subscribers event es ->
      never_subscribes event cb ops = true ->
      forall d : payload,
        Called cb d ∉
          EventSystem_emit event data
            (bus_after ops
               (EventSystem_off event cb (EventSystem_on event cb es)))).
Proof.
  split; [|split].
  - by rewrite emit_subscribers, subscribers_bus_after.
  - intros H. by rewrite emit_subscribers, H.
  - intros cb Hcb Hops d Hin.
    rewrite emit_subscribers, subscribers_bus_after in Hin.
    apply list_elem_of_fmap in Hin as (c & Heq & Hc).
    injection Heq as -> ->.
    revert Hc. apply never_subscribed_stays_out; [done|].
    rewrite subscribers_off, decide_True by done.
    rewrite subscribers_on, decide_True by done.
    by rewrite remove_first_snoc.
Qed.

(** ** Running the monad *)

Lemma after_calls_nil {A} (o : outcome A) : after_calls [] o = o.
Proof. by destruct o. Qed.

Lemma after_calls_app {A} (t1 t2 : list effect) (o : outcome A) :
  after_calls t1 (after_calls t2 o) = after_calls (t1 ++ t2) o.
Proof. destruct o; simpl; by rewrite app_assoc. Qed.

Lemma run_bind {A B} (m : M A) (k : A -> M B) (w : World) :
  (m ≫= k) w =
    match m w with
    | Return a w1 t1 => after_calls t1 (k a w1)
    | Throw w1 t1 => Throw w1 t1
    end.
Proof. reflexivity. Qed.

Lemma run_ret_bind {A B} (a : A) (k : A -> M B) (w : World) :
  (mret a ≫= k) w = k a w.
Proof. rewrite run_bind. apply after_calls_nil. Qed.

Lemma run_get_bind {B} (k : World -> M B) (w : World) :
  (get ≫= k) w = k w w.
Proof. rewrite run_bind. apply after_calls_nil. Qed.

Lemma run_modify_bind {B} (f : World -> World) (k : unit -> M B) (w : World) :
  (modify f ≫= k) w = k tt (f w).
Proof. rewrite run_bind. apply after_calls_nil. Qed.

Lemma run_tell_bind {B} (tr : list effect) (k : unit -> M B) (w : World) :
  (tell tr ≫= k) w = after_calls tr (k tt w).
Proof. reflexivity. Qed.

Lemma run_modify_engine_bind {B} (f : GameEngine -> GameEngine)
    (k : unit -> M B) (w : World) :
  (modify_engine f ≫= k) w = k tt (set_engine (f (engine w)) w).
Proof. unfold modify_engine. by rewrite run_modify_bind. Qed.

Lemma run_modify_object_bind {B} (r : ref) (f : GameObject -> GameObject)
    (k : unit -> M B) (w : World) :
  (modify_object r f ≫= k) w = k tt (set_objects (alter f r (objects w)) w).
Proof. unfold modify_object. by rewrite run_modify_bind. Qed.

Lemma run_modify_scene_bind {B} (r : ref) (f : Scene -> Scene)
    (k : unit -> M B) (w : World) :
  (modify_scene r f ≫= k) w = k tt (set_sceneStore (alter f r (sceneStore w)) w).
Proof. unfold modify_scene. by rewrite run_modify_bind. Qed.

Ltac mstep :=
  first [ rewrite run_get_bind
        | rewrite run_ret_bind
        | rewrite run_modify_engine_bind
        | rewrite run_modify_object_bind
        | rewrite run_modify_scene_bind
        | rewrite run_modify_bind
        | rewrite run_tell_bind ].

(** ** Player *)

Lemma Player_update_attached (w : World) (self : ref) (o : GameObject) (dt : Q) :
  objects w !! self = Some o ->
  obj_engine o = true ->
  Player_update self dt w =
    Return tt
      (set_objects
         (<[self := Player_clamp (engine w) (Player_move (Some (engine w)) dt o)]>
            (objects w)) w) [].
Proof.
  intros Ho He. unfold Player_update.
  mstep. rewrite Ho, He. mstep.
  unfold modify_object, modify. simpl. f_equal. unfold set_objects. simpl.
  f_equal. apply map_eq. intros i. destruct (decide (self = i)) as [->|Hne].
  - by rewrite !lookup_alter_eq, lookup_insert_eq, Ho.
  - by rewrite !lookup_alter_ne, lookup_insert_ne.
Qed.

Lemma Player_update_detached (w : World) (self : ref) (o : GameObject) (dt : Q) :
  objects w !! self = Some o ->
  obj_engine o = false ->
  returns (Player_update self dt w) = false.
Proof.
  intros Ho He. unfold Player_update. mstep. rewrite Ho, He. by mstep.
Qed.

Lemma clamp_bounds (v lim : Q) :
  0 <= Math_max 0 (Math_min v lim) /\
  (0 <= lim -> Math_max 0 (Math_min v lim) <= lim).
Proof.
  unfold Math_max, Math_min. split.
  - apply Q.le_max_l.
  - intros H. apply Q.max_lub; [done|]. apply Q.le_min_r.
Qed.

Lemma clamp_inside (v lim : Q) :
  0 <= v -> v <= lim -> Math_max 0 (Math_min v lim) == v.
Proof.
  intros H0 H1. unfold Math_max, Math_min.
  rewrite Q.min_l by done. by rewrite Q.max_r.
Qed.

Lemma clamp_narrow (v lim : Q) :
  lim < 0 -> Math_max 0 (Math_min v lim) == 0.
Proof.
  intros H. unfold Math_max, Math_min. apply Q.max_l.
  apply Qle_trans with lim; [apply Q.le_min_r|by apply Qlt_le_weak].
Qed.

(** On a surface narrower than the player the horizontal position is 0
    after every update. *)
Lemma Player_update_narrow_surface
    (w : World) (self : ref) (o : GameObject) (speed : Q) (d : Direction)
    (dt : Q) :
  objects w !! self = Some o ->
  obj_kind o = IsPlayer speed d ->
  obj_engine o = true ->
  width (engine w) < obj_width o ->
  exists (w' : World) (o' : GameObject),
    Player_update self dt w = Return tt w' [] /\
    objects w' !! self = Some o' /\
    obj_x o' == 0.
Proof.
  intros Ho Hk He Hw.
  eexists _, _. split; [by apply Player_update_attached|].
  split; [apply lookup_insert_eq|].
  unfold Player_clamp, Player_move. rewrite Hk. simpl.
  apply clamp_narrow. lra.
Qed.

(** C7. After Player.update the position satisfies
    0 <= x <= surfaceWidth - w and 0 <= y <= surfaceHeight - h, for every
    starting position, every state of the keys and every dt, on a
    surface that is at least as large as the player. *)
Theorem Player_update_clamps
    (w : World) (self : ref) (o : GameObject) (speed : Q) (d : Direction)
    (dt : Q) :
  objects w !! self = Some o ->
  obj_kind o = IsPlayer speed d ->
  obj_engine o = true ->
  obj_width o <= width (engine w) ->
  obj_height o <= height (engine w) ->
  exists (w' : World) (o' : GameObject),
    Player_update self dt w = Return tt w' [] /\
    objects w' !! self = Some o' /\
    0 <= obj_x o' /\ obj_x o' <= width (engine w') - obj_width o' /\
    0 <= obj_y o' /\ obj_y o' <= height (engine w') - obj_height o'.
Proof.
  intros Ho Hk He Hw Hh.
  eexists _, _. split; [by apply Player_update_attached|].
  split; [apply lookup_insert_eq|].
  unfold Player_clamp, Player_move. rewrite Hk. simpl.
  pose proof (clamp_bounds
    (obj_x o + dir_x (Player_normalize (Player_direction (Some (engine w))))
               * speed * dt / 1000) (width (engine w) - obj_width o)) as [X0 X1].
  pose proof (clamp_bounds
    (obj_y o + dir_y (Player_normalize (Player_direction (Some (engine w))))
               * speed * dt / 1000) (height (engine w) - obj_height o)) as [Y0 Y1].
  repeat split; [done|apply X1; lra|done|apply Y1; lra].
Qed.

(** C6. With right and down held (dx = dy = 1), speed 200 and
    dt = 1000 ms, away from the borders, one Player.update moves each
    axis by 200 * 0.707 = 141.4, so that the displacement has a length
    close to 200 (between 199.9 and 200) and not 200 * sqrt 2. *)
Theorem Player_update_diagonal
    (w : World) (self : ref) (o : GameObject) (d : Direction) :
  objects w !! self = Some o ->
  obj_kind o = IsPlayer 200 d ->
  obj_engine o = true ->
  pressed (keys (engine w)) "ArrowRight" || pressed (keys (engine w)) "KeyD" = true ->
  pressed (keys (engine w)) "ArrowDown" || pressed (keys (engine w)) "KeyS" = true ->
  0 <= obj_x o + 141.4 ->
  obj_x o + 141.4 <= width (engine w) - obj_width o ->
  0 <= obj_y o + 141.4 ->
  obj_y o + 141.4 <= height (engine w) - obj_height o ->
  exists (w' : World) (o' : GameObject),
    Player_update self 1000 w = Return tt w' [] /\
    objects w' !! self = Some o' /\
    obj_x o' - obj_x o == 200 * 0.707 /\
    obj_y o' - obj_y o == 200 * 0.707 /\
    obj_x o' - obj_x o == 141.4 /\
    obj_y o' - obj_y o == 141.4 /\
    let d2 := (obj_x o' - obj_x o) * (obj_x o' - obj_x o) +
              (obj_y o' - obj_y o) * (obj_y o' - obj_y o) in
    199.9 * 199.9 < d2 /\ d2 < 200 * 200 /\ d2 < 200 * 200 * 2.
Proof.
  intros Ho Hk He Hright Hdown Hx0 Hx1 Hy0 Hy1.
  eexists _, _. split; [by apply Player_update_attached|].
  split; [apply lookup_insert_eq|].
  unfold Player_clamp, Player_move. rewrite Hk.
  unfold Player_direction. rewrite Hright, Hdown.
  change (Player_normalize {| dir_x := 1; dir_y := 1 |})
    with (mkDirection (1 * 0.707) (1 * 0.707)).
  cbn [obj_x obj_y obj_width obj_height set_position dir_x dir_y].
  assert (Hdx : 1 * 0.707 * 200 * 1000 / 1000 == 141.4) by reflexivity.
  rewrite !Hdx.
  rewrite !clamp_inside by done.
  assert (Ex : obj_x o + 141.4 - obj_x o == 141.4) by ring.
  assert (Ey : obj_y o + 141.4 - obj_y o == 141.4) by ring.
  cbv zeta. rewrite !Ex, !Ey.
  repeat split; reflexivity.
Qed.

(** ** Item *)

Lemma world_of_after_calls {A} (tr : list effect) (o : outcome A) :
  world_of (after_calls tr o) = world_of o.
Proof. by destruct o. Qed.

Lemma trace_of_after_calls {A} (tr : list effect) (o : outcome A) :
  trace_of (after_calls tr o) = tr ++ trace_of o.
Proof. by destruct o. Qed.

Lemma returns_after_calls {A} (tr : list effect) (o : outcome A) :
  returns (after_calls tr o) = returns o.
Proof. by destruct o. Qed.

Lemma Item_update_collected (w : World) (self : ref) (dt : Q) :
  is_collected w self = true ->
  Item_update self dt w = Return tt w [].
Proof.
  unfold is_collected, Item_update. intros H. mstep.
  destruct (objects w !! self) as [o|]; [|done].
  destruct (obj_kind o) as [| |data c h]; try done. by subst.
Qed.

(** Item.collect on an item that is not collected yet, when the
    inventory refuses it. *)
Lemma Item_collect_full (w : World) (self : ref) (o : GameObject)
    (data : ItemData) (h : bool) :
  objects w !! self = Some o ->
  obj_kind o = IsItem data false h ->
  obj_engine o = true ->
  (maxItems (inventory (engine w)) <= length (items (inventory (engine w))))%nat ->
  Item_collect self w =
    Return tt
      (set_engine (set_inventory (inventory (engine w)) (engine w))
         (set_objects (alter (Item_set_collected true) self (objects w)) w))
      [].
Proof.
  intros Ho Hk He Hfull. unfold Item_collect.
  mstep. rewrite Ho, Hk. mstep. rewrite He.
  rewrite addItem_full by done. by repeat mstep.
Qed.

(** The item after Item.collect, whatever the inventory says. *)
Lemma Item_collect_objects (w : World) (self : ref) (o : GameObject)
    (data : ItemData) (h : bool) :
  objects w !! self = Some o ->
  obj_kind o = IsItem data false h ->
  objects (world_of (Item_collect self w)) =
    alter (Item_set_collected true) self (objects w).
Proof.
  intros Ho Hk. unfold Item_collect.
  mstep. rewrite Ho, Hk. mstep.
  destruct (obj_engine o); [|done].
  destruct (Inventory_addItem data (inventory (engine w))) as [[success inv] ui].
  repeat mstep. rewrite world_of_after_calls.
  destruct success; [|done].
  mstep. rewrite world_of_after_calls. by destruct (truthy (dialogue data)).
Qed.

(** The item after Item.update, for an attached item not collected
    yet. *)
Lemma Item_update_objects (w : World) (self : ref) (o : GameObject)
    (data : ItemData) (h : bool) (dt : Q) :
  objects w !! self = Some o ->
  obj_kind o = IsItem data false h ->
  obj_engine o = true ->
  let h' := Item_hover (mouse (engine w)) o in
  objects (world_of (Item_update self dt w)) !! self =
    Some (set_obj_kind
            (IsItem data (h' && mouse_clicked (mouse (engine w))) h') o).
Proof.
  intros Ho Hk He h'. unfold Item_update.
  mstep. rewrite Ho, Hk, He. fold h'. mstep.
  rewrite andb_true_r.
  destruct (h' && mouse_clicked (mouse (engine w))) eqn:E.
  - erewrite Item_collect_objects.
    + simpl. rewrite !lookup_alter_eq, Ho. simpl.
      unfold Item_set_collected, Item_set_hovered. rewrite Hk. simpl. by destruct o.
    + simpl. by rewrite lookup_alter_eq, Ho.
    + unfold Item_set_hovered. by rewrite Hk.
  - simpl. rewrite lookup_alter_eq, Ho. simpl.
    unfold Item_set_hovered. by rewrite Hk.
Qed.

Lemma Item_hover_iff (m : Mouse) (o : GameObject) :
  Item_hover m o = true <->
  (obj_x o <= mouse_x m /\ mouse_x m <= obj_x o + obj_width o /\
   obj_y o <= mouse_y m /\ mouse_y m <= obj_y o + obj_height o).
Proof. unfold Item_hover. rewrite !andb_true_iff, !Qleb_iff. tauto. Qed.

(** C5. For an item that is not collected, the hover flag after its
    update is true exactly when the pointer is in the closed rectangle
    x <= px <= x + w, y <= py <= y + h.  A pointer at exactly
    (x + w, y + h) hovers, whereas the strict collision test rejects an
    object placed at that corner. *)
Theorem Item_update_hover_closed
    (w : World) (self : ref) (o : GameObject) (data : ItemData)
    (hovered : bool) (dt : Q) :
  objects w !! self = Some o ->
  obj_kind o = IsItem data false hovered ->
  obj_engine o = true ->
  let px := mouse_x (mouse (engine w)) in
  let py := mouse_y (mouse (engine w)) in
  let w' := world_of (Item_update self dt w) in
  (is_hovered w' self = true <->
   (obj_x o <= px /\ px <= obj_x o + obj_width o /\
    obj_y o <= py /\ py <= obj_y o + obj_height o)) /\
  (0 <= obj_width o -> 0 <= obj_height o ->
   px == obj_x o + obj_width o -> py == obj_y o + obj_height o ->
   is_hovered w' self = true) /\
  GameObject_isColliding o
    (GameObject_new (obj_x o + obj_width o) (obj_y o + obj_height o) 0 0) = false.
Proof.
  intros Ho Hk He px py w'.
  assert (Hhov : is_hovered w' self = Item_hover (mouse (engine w)) o).
  { unfold is_hovered, w'. by erewrite Item_update_objects. }
  rewrite Hhov, Item_hover_iff. fold px py.
  split; [done|]. split.
  - intros Hw Hh Hx Hy. rewrite Hx, Hy. repeat split; lra.
  - apply not_true_is_false. intros Hc.
    apply GameObject_isColliding_iff in Hc. simpl in Hc. lra.
Qed.

(** C1, as amended.  When the inventory is at capacity (addItem
    fails), a click on a hovered item that is not collected still marks
    it collected: the inventory is unchanged, no call is made (no
    itemCollected event, no panel refresh, no dialogue), and from then on
    the update of the item does nothing, so that the item cannot be
    collected on a later click. *)
Theorem Item_update_full_inventory
    (w : World) (self : ref) (o : GameObject) (data : ItemData)
    (hovered : bool) (dt : Q) :
  objects w !! self = Some o ->
  obj_kind o = IsItem data false hovered ->
  obj_engine o = true ->
  (maxItems (inventory (engine w)) <= length (items (inventory (engine w))))%nat ->
  Item_hover (mouse (engine w)) o = true ->
  mouse_clicked (mouse (engine w)) = true ->
  exists w' : World,
    Item_update self dt w = Return tt w' [] /\
    is_collected w' self = true /\
    inventory (engine w') = inventory (engine w) /\
    (forall (w2 : World) (dt2 : Q),
        is_collected w2 self = true -> Item_update self dt2 w2 = Return tt w2 []).
Proof.
  intros Ho Hk He Hfull Hhov Hclick.
  eexists. split; [|split; [|split]].
  - unfold Item_update. mstep. rewrite Ho, Hk, He, Hhov, Hclick. mstep. simpl.
    eapply Item_collect_full; simpl.
    + by rewrite lookup_alter_eq, Ho.
    + unfold Item_set_hovered. by rewrite Hk.
    + unfold Item_set_hovered. by rewrite Hk.
    + done.
  - unfold is_collected. simpl. rewrite !lookup_alter_eq, Ho. simpl.
    unfold Item_set_collected, Item_set_hovered. by rewrite Hk.
  - done.
  - intros w2 dt2. apply Item_update_collected.
Qed.

(** ** Properties kept by every step *)

Section Sat.
Context (P : World -> World -> list effect -> Prop) `{!Compositional P}.

Lemma sat_ret {A} (a : A) : sat P (mret a).
Proof. intros w. apply comp_refl. Qed.

Lemma sat_get : sat P get.
Proof. intros w. apply comp_refl. Qed.

Lemma sat_throw {A} : sat P (@throw A).
Proof. intros w. apply comp_refl. Qed.

Lemma sat_bind {A B} (m : M A) (k : A -> M B) :
  sat P m -> (forall a, sat P (k a)) -> sat P (m ≫= k).
Proof.
  intros Hm Hk w. rewrite run_bind. specialize (Hm w).
  destruct (m w) as [a w1 t1|w1 t1]; simpl in *; [|done].
  rewrite world_of_after_calls, trace_of_after_calls.
  eapply comp_trans; [done|apply Hk].
Qed.

Lemma sat_forEach {A} (l : list A) (f : A -> M unit) :
  (forall a, sat P (f a)) -> sat P (forEach l f).
Proof.
  intros Hf. induction l as [|a l IH]; simpl.
  - apply sat_ret.
  - apply sat_bind; [apply Hf|]. intros _. apply IH.
Qed.

Lemma sat_modify (f : World -> World) :
  (forall w, P w (f w) []) -> sat P (modify f).
Proof. intros H w. apply H. Qed.

Lemma sat_tell (tr : list effect) :
  (forall w, P w w tr) -> sat P (tell tr).
Proof. intros H w. apply H. Qed.
End Sat.

Lemma sat_weaken {A} (P Q : World -> World -> list effect -> Prop) (m : M A) :
  (forall w w' tr, P w w' tr -> Q w w' tr) -> sat P m -> sat Q m.
Proof. intros H Hm w. apply H, Hm. Qed.

(** The methods already shown to satisfy a property. *)
Create HintDb sat.

(** One step of the structure of a method. *)
Ltac sat_step :=
  first
    [ solve [auto 1 with sat nocore]
    | apply sat_ret; try typeclasses eauto
    | apply sat_get; try typeclasses eauto
    | apply sat_throw; try typeclasses eauto
    | apply sat_bind; [try typeclasses eauto| |intros ?]
    | apply sat_forEach; [try typeclasses eauto|intros ?]
    | match goal with
      | |- sat _ (match ?x with _ => _ end) => destruct x eqn:?
      end ].

(** *** The frame *)

Lemma same_shape_refl (o : option GameObject) : same_shape o o.
Proof.
  destruct o as [a|]; simpl; [|done].
  split; [done|]. by destruct (obj_kind a).
Qed.

Lemma same_class_trans (a b c : ObjKind) :
  same_class a b = true -> same_class b c = true -> same_class a c = true.
Proof. by destruct a, b, c. Qed.

Lemma same_shape_trans (a b c : option GameObject) :
  same_shape a b -> same_shape b c -> same_shape a c.
Proof.
  destruct a, b, c; simpl; try done.
  intros [E1 C1] [E2 C2]. split; [congruence|].
  by eapply same_class_trans.
Qed.

Lemma frame_refl (w : World) : frame w w.
Proof. split; try done. intros r. apply same_shape_refl. Qed.

Lemma frame_trans (w1 w2 w3 : World) : frame w1 w2 -> frame w2 w3 -> frame w1 w3.
Proof.
  intros [] []. split; try congruence.
  intros r. by eapply same_shape_trans.
Qed.

Lemma frame_alter (w : World) (r : ref) (f : GameObject -> GameObject) :
  keeps_shape f -> frame w (set_objects (alter f r (objects w)) w).
Proof.
  intros Hf. split; try done. intros i. simpl.
  destruct (decide (r = i)) as [->|Hne].
  - rewrite lookup_alter_eq. destruct (objects w !! i); simpl; [apply Hf|done].
  - rewrite lookup_alter_ne by done. apply same_shape_refl.
Qed.

Lemma keeps_shape_Player_move (e : option GameEngine) (dt : Q) :
  keeps_shape (Player_move e dt).
Proof. intros o. unfold Player_move. by destruct (obj_kind o) eqn:E; simpl; rewrite ?E. Qed.

Lemma keeps_shape_Player_clamp (e : GameEngine) : keeps_shape (Player_clamp e).
Proof. intros o. simpl. split; [done|]. by destruct (obj_kind o). Qed.

Lemma keeps_shape_Item_set_collected (v : bool) :
  keeps_shape (Item_set_collected v).
Proof.
  intros o. unfold Item_set_collected.
  by destruct (obj_kind o) eqn:E; simpl; rewrite ?E.
Qed.

Lemma keeps_shape_Item_set_hovered (v : bool) : keeps_shape (Item_set_hovered v).
Proof.
  intros o. unfold Item_set_hovered.
  by destruct (obj_kind o) eqn:E; simpl; rewrite ?E.
Qed.

#[export] Instance hook_frame_compositional : Compositional hook_frame.
Proof.
  split.
  - intros w. split; [apply frame_refl|constructor].
  - intros w1 w2 w3 t1 t2 [F1 T1] [F2 T2]. split.
    + by eapply frame_trans.
    + by apply Forall_app.
Qed.

Lemma hook_frame_modify_object (r : ref) (f : GameObject -> GameObject) :
  keeps_shape f -> sat hook_frame (modify_object r f).
Proof. intros Hf w. split; [by apply frame_alter|constructor]. Qed.

Lemma hook_frame_tell (tr : list effect) :
  Forall hook_effect tr -> sat hook_frame (tell tr).
Proof. intros H w. split; [apply frame_refl|done]. Qed.

Lemma hook_frame_set_inventory (inv : Inventory) :
  sat hook_frame (modify_engine (set_inventory inv)).
Proof.
  intros w. split; [|constructor]. split; try done.
  intros r. apply same_shape_refl.
Qed.

Lemma Forall_hook_emit (event : string) (data : payload) (es : EventSystem) :
  Forall hook_effect (EventSystem_emit event data es).
Proof.
  unfold EventSystem_emit. destruct (es !! event) as [l|]; [|constructor].
  induction l; simpl; by constructor.
Qed.

Lemma Forall_hook_addItem (item : ItemData) (inv : Inventory) :
  Forall hook_effect (Inventory_addItem item inv).2.
Proof.
  unfold Inventory_addItem.
  destruct (_ <? _)%nat; simpl; repeat constructor.
Qed.

Lemma Player_update_hook (self : ref) (dt : Q) :
  sat hook_frame (Player_update self dt).
Proof.
  unfold Player_update. repeat sat_step.
  - apply hook_frame_modify_object, keeps_shape_Player_move.
  - apply hook_frame_modify_object, keeps_shape_Player_clamp.
Qed.

Lemma Item_collect_hook (self : ref) : sat hook_frame (Item_collect self).
Proof.
  unfold Item_collect. repeat sat_step.
  - apply hook_frame_modify_object, keeps_shape_Item_set_collected.
  - apply hook_frame_set_inventory.
  - apply hook_frame_tell.
    match goal with H : Inventory_addItem ?d ?i = _ |- _ =>
      pose proof (Forall_hook_addItem d i) as HF;
      rewrite H in HF; exact HF end.
  - apply hook_frame_tell, Forall_hook_emit.
  - apply hook_frame_tell. by repeat constructor.
Qed.

#[export] Hint Resolve Player_update_hook Item_collect_hook : sat.

Lemma Item_update_hook (self : ref) (dt : Q) :
  sat hook_frame (Item_update self dt).
Proof.
  unfold Item_update. repeat sat_step.
  apply hook_frame_modify_object, keeps_shape_Item_set_hovered.
Qed.

(** Item.update and Item.collect never throw. *)
Lemma Item_collect_returns (self : ref) (w : World) :
  returns (Item_collect self w) = true.
Proof.
  unfold Item_collect. mstep.
  destruct (objects w !! self) as [o|]; [|done].
  destruct (obj_kind o) as [| |data c h]; try done.
  destruct c; [done|]. mstep.
  destruct (obj_engine o); [|done].
  destruct (Inventory_addItem data (inventory (engine w))) as [[success inv] ui].
  repeat mstep. rewrite returns_after_calls.
  destruct success; [|done].
  mstep. rewrite returns_after_calls. by destruct (truthy (dialogue data)).
Qed.

Lemma Item_update_returns (self : ref) (dt : Q) (w : World) :
  returns (Item_update self dt w) = true.
Proof.
  unfold Item_update. mstep.
  destruct (objects w !! self) as [o|]; [|done].
  destruct (obj_kind o) as [| |data c h]; try done.
  destruct c; [done|]. mstep.
  match goal with |- context [if ?b then _ else _] => destruct b end;
    [apply Item_collect_returns|done].
Qed.

(** *** The update of the objects of a frame *)

#[export] Instance update_frame_compositional : Compositional update_frame.
Proof.
  split.
  - intros w. split; [apply frame_refl|constructor].
  - intros w1 w2 w3 t1 t2 [F1 T1] [F2 T2]. split.
    + by eapply frame_trans.
    + by apply Forall_app.
Qed.

Lemma hook_effect_update_effect (e : effect) : hook_effect e -> update_effect e.
Proof. by destruct e. Qed.

Lemma updateCalls_app (obj : ref) (t1 t2 : list effect) :
  updateCalls obj (t1 ++ t2) = (updateCalls obj t1 + updateCalls obj t2)%nat.
Proof.
  induction t1 as [|e t1 IH]; simpl; [done|].
  destruct e; simpl; try done. rewrite IH. lia.
Qed.

Lemma updateCalls_hook (obj : ref) (tr : list effect) :
  Forall hook_effect tr -> updateCalls obj tr = 0%nat.
Proof.
  induction 1 as [|e tr He _ IH]; simpl; [done|]. by destruct e.
Qed.

Lemma frame_is_Some (w w' : World) (r : ref) :
  frame w w' -> is_Some (objects w !! r) -> is_Some (objects w' !! r).
Proof.
  intros F [o Ho]. pose proof (frame_objects _ _ F r) as H.
  rewrite Ho in H. destruct (objects w' !! r); [done|]. by simpl in H.
Qed.

Lemma frame_attached (w w' : World) (r : ref) :
  frame w w' -> attached_if_player w r = attached_if_player w' r.
Proof.
  intros F. pose proof (frame_objects _ _ F r) as H.
  unfold attached_if_player.
  destruct (objects w !! r) as [a|], (objects w' !! r) as [b|]; simpl in H;
    try done.
  destruct H as [E C]. by destruct (obj_kind a), (obj_kind b).
Qed.

(** One call of obj.update: it returns when a Player has its engine,
    keeps the frame and is recorded once when [r] is an object. *)
Lemma GameObject_update_spec (w : World) (r obj : ref) (dt : Q) :
  attached_if_player w r = true ->
  exists (w' : World) (tr : list effect),
    GameObject_update r dt w = Return tt w' tr /\
    frame w w' /\
    Forall update_effect tr /\
    updateCalls obj tr =
      (if decide (r = obj)
       then match objects w !! r with Some _ => 1%nat | None => 0%nat end
       else 0%nat).
Proof.
  intros Hat. unfold GameObject_update. mstep.
  unfold attached_if_player in Hat.
  destruct (objects w !! r) as [o|] eqn:Ho.
  2:{ eexists _, _. split; [done|]. split; [apply frame_refl|].
      split; [constructor|]. by case_decide. }
  mstep.
  assert (Hhook : forall m : M unit,
            sat hook_frame m -> returns (m w) = true ->
            exists w' tr,
              after_calls [ObjUpdate r dt] (m w) = Return tt w' tr /\
              frame w w' /\ Forall update_effect tr /\
              updateCalls obj tr = (if decide (r = obj) then 1%nat else 0%nat)).
  { intros m Hm Hr. destruct (Hm w) as [F T].
    destruct (m w) as [[] w' tr|]; [|done]. simpl in *.
    eexists _, _. split; [done|]. split; [done|]. split.
    - constructor; [done|]. eapply Forall_impl; [done|].
      apply hook_effect_update_effect.
    - simpl. rewrite (updateCalls_hook obj tr T). lia. }
  destruct (obj_kind o) eqn:Hk.
  - apply (Hhook (mret tt)); [|done]. apply sat_ret. typeclasses eauto.
  - apply Hhook; [apply Player_update_hook|].
    by erewrite Player_update_attached.
  - apply Hhook; [apply Item_update_hook|apply Item_update_returns].
Qed.

Lemma update_frame_of_hook {A} (m : M A) : sat hook_frame m -> sat update_frame m.
Proof.
  apply sat_weaken. intros w w' tr [F T]. split; [done|].
  eapply Forall_impl; [done|]. apply hook_effect_update_effect.
Qed.

Lemma Player_update_frame (self : ref) (dt : Q) :
  sat update_frame (Player_update self dt).
Proof. apply update_frame_of_hook, Player_update_hook. Qed.

Lemma Item_update_frame (self : ref) (dt : Q) :
  sat update_frame (Item_update self dt).
Proof. apply update_frame_of_hook, Item_update_hook. Qed.

#[export] Hint Resolve Player_update_frame Item_update_frame : sat.

Lemma GameObject_update_frame (r : ref) (dt : Q) :
  sat update_frame (GameObject_update r dt).
Proof.
  unfold GameObject_update. repeat sat_step.
  intros w. split; [apply frame_refl|]. by repeat constructor.
Qed.

#[export] Hint Resolve GameObject_update_frame : sat.

Lemma Scene_update_frame (s : ref) (dt : Q) : sat update_frame (Scene_update s dt).
Proof. unfold Scene_update. repeat sat_step. Qed.

#[export] Hint Resolve Scene_update_frame : sat.

Lemma GameScene_update_frame (s : ref) (dt : Q) :
  sat update_frame (GameScene_update s dt).
Proof. unfold GameScene_update. repeat sat_step. Qed.

#[export] Hint Resolve GameScene_update_frame : sat.

Lemma Scene_update_dispatch_frame (s : ref) (dt : Q) :
  sat update_frame (Scene_update_dispatch s dt).
Proof. unfold Scene_update_dispatch. repeat sat_step. Qed.

(** *** A frame that completes *)

Lemma occurrences_cons (obj r : ref) (l : list ref) :
  occurrences obj (r :: l) =
    ((if decide (r = obj) then 1 else 0) + occurrences obj l)%nat.
Proof. unfold occurrences. rewrite filter_cons. by case_decide. Qed.

Lemma occurrences_snoc (obj : ref) (l : list ref) :
  occurrences obj (l ++ [obj]) = S (occurrences obj l).
Proof.
  unfold occurrences. rewrite filter_app, length_app, filter_cons.
  rewrite decide_True by done. simpl. lia.
Qed.

Lemma occurrences_not_elem (obj : ref) (l : list ref) :
  obj ∉ l -> occurrences obj l = 0%nat.
Proof.
  induction l as [|r l IH]; intros H; [done|].
  apply not_elem_of_cons in H as [Hne Hl].
  rewrite occurrences_cons, IH by done. by rewrite decide_False.
Qed.

Lemma forallb_attached_frame (w w' : World) (l : list ref) :
  frame w w' ->
  forallb (attached_if_player w') l = forallb (attached_if_player w) l.
Proof.
  intros F. induction l as [|r l IH]; simpl; [done|].
  by rewrite IH, (frame_attached w w' r F).
Qed.

Lemma forEach_update_spec (l : list ref) (obj : ref) (dt : Q) (w : World) :
  forallb (attached_if_player w) l = true ->
  exists (w' : World) (tr : list effect),
    forEach l (fun r => GameObject_update r dt) w = Return tt w' tr /\
    frame w w' /\
    Forall update_effect tr /\
    (is_Some (objects w !! obj) -> updateCalls obj tr = occurrences obj l).
Proof.
  revert w. induction l as [|r l IH]; intros w Hall; simpl.
  - exists w, []. split; [done|]. split; [apply frame_refl|]. by split.
  - simpl in Hall. apply andb_true_iff in Hall as [Hr Hl].
    destruct (GameObject_update_spec w r obj dt Hr) as (w1 & t1 & E1 & F1 & T1 & C1).
    destruct (IH w1) as (w2 & t2 & E2 & F2 & T2 & C2).
    { by rewrite (forallb_attached_frame w w1). }
    exists w2, (t1 ++ t2). rewrite run_bind, E1, E2. simpl.
    split; [done|]. split; [by eapply frame_trans|].
    split; [by apply Forall_app|].
    intros Hobj.
    rewrite updateCalls_app, occurrences_cons, C1, C2
      by (by eapply frame_is_Some).
    case_decide; [|done]. subst. destruct Hobj as [o Ho]. by rewrite Ho.
Qed.

(** The scan of GameScene.update makes no call and changes nothing when
    the scene has its player. *)
Lemma scan_returns (its : list ref) (player : option ref) (w : World) :
  (player = None -> its = []) ->
  forEach its (fun item =>
     w ← get;
     if negb (is_collected w item) then
       match player with
       | Some _ => mret tt
       | None => throw
       end
     else mret tt) w = Return tt w [].
Proof.
  intros H. destruct player as [p|]; [|by rewrite H].
  clear H. induction its as [|i its IH]; simpl; [done|].
  rewrite run_bind, run_get_bind.
  destruct (negb (is_collected w i)); simpl; by rewrite IH.
Qed.

Lemma Scene_update_dispatch_spec (w : World) (s : ref) (sc : Scene)
    (obj : ref) (dt : Q) :
  sceneStore w !! s = Some sc ->
  forallb (attached_if_player w) (scene_gameObjects sc) = true ->
  scan_ready sc = true ->
  exists (w' : World) (tr : list effect),
    Scene_update_dispatch s dt w = Return tt w' tr /\
    frame w w' /\
    Forall update_effect tr /\
    (is_Some (objects w !! obj) ->
     updateCalls obj tr = occurrences obj (scene_gameObjects sc)).
Proof.
  intros Hs Hall Hscan.
  destruct (forEach_update_spec _ obj dt w Hall) as (w1 & t1 & E1 & F1 & T1 & C1).
  assert (ES : Scene_update s dt w = Return tt w1 t1).
  { unfold Scene_update. mstep. by rewrite Hs. }
  unfold Scene_update_dispatch. mstep. rewrite Hs.
  destruct (scene_kind sc) as [|player its cg] eqn:Hk.
  - by exists w1, t1.
  - exists w1, t1. split; [|done].
    unfold GameScene_update. rewrite run_bind, ES. mstep.
    rewrite (frame_sceneStore _ _ F1), Hs, Hk.
    rewrite scan_returns; [simpl; by rewrite app_nil_r|].
    intros ->. unfold scan_ready in Hscan. rewrite Hk in Hscan.
    by destruct its.
Qed.

(** engine.update(dt) in a world where the frame can be updated. *)
Lemma GameEngine_update_spec (w : World) (obj : ref) (dt : Q) :
  can_update w = true ->
  exists (w' : World) (tr : list effect),
    GameEngine_update dt w = Return tt w' (EngineUpdate dt :: tr) /\
    frame w w' /\
    Forall update_effect tr /\
    (is_Some (objects w !! obj) ->
     updateCalls obj tr =
       (occurrences obj (active_scene_objects w) +
        occurrences obj (gameObjects (engine w)))%nat).
Proof.
  intros Hcan. unfold can_update in Hcan.
  apply andb_true_iff in Hcan as [Hglob Hscene].
  assert (Hsc : exists w1 t1,
            (match currentScene (engine w) with
             | Some s => Scene_update_dispatch s dt
             | None => mret tt
             end) w = Return tt w1 t1 /\
            frame w w1 /\ Forall update_effect t1 /\
            (is_Some (objects w !! obj) ->
             updateCalls obj t1 = occurrences obj (active_scene_objects w))).
  { unfold active_scene_objects.
    destruct (currentScene (engine w)) as [s|].
    - destruct (sceneStore w !! s) as [sc|] eqn:Hs; [|done].
      apply andb_true_iff in Hscene as [Hall Hscan].
      by eapply Scene_update_dispatch_spec.
    - exists w, []. split; [done|]. split; [apply frame_refl|]. by split. }
  destruct Hsc as (w1 & t1 & E1 & F1 & T1 & C1).
  destruct (forEach_update_spec (gameObjects (engine w1)) obj dt w1)
    as (w2 & t2 & E2 & F2 & T2 & C2).
  { rewrite (frame_gameObjects _ _ F1).
    by rewrite (forallb_attached_frame w w1). }
  eexists _, (t1 ++ t2).
  unfold GameEngine_update. rewrite run_tell_bind. mstep.
  rewrite run_bind, E1. mstep. rewrite run_bind, E2. simpl.
  split; [by rewrite app_nil_r|].
  split.
  { eapply frame_trans; [done|]. eapply frame_trans; [done|].
    split; try done. intros r. apply same_shape_refl. }
  split; [by apply Forall_app|].
  intros Hobj.
  rewrite updateCalls_app, C1, C2 by (done || by eapply frame_is_Some).
  by rewrite (frame_gameObjects _ _ F1).
Qed.

(** ** Registration through a scene *)

Lemma Scene_addGameObject_attached (w : World) (s : ref) (sc : Scene) (obj : ref) :
  sceneStore w !! s = Some sc ->
  scene_engine sc = true ->
  Scene_addGameObject s obj w =
    Return tt
      (mkWorld
         (set_gameObjects (gameObjects (engine w) ++ [obj]) (engine w))
         (alter (set_obj_engine true) obj (objects w))
         (alter (fun s => set_scene_gameObjects (scene_gameObjects s ++ [obj]) s)
            s (sceneStore w))
         (nextRef w)) [].
Proof.
  intros Hs He. unfold Scene_addGameObject. mstep. rewrite Hs. mstep.
  rewrite He. unfold GameEngine_addGameObject. by mstep.
Qed.

Lemma attached_after_engine_set (m : gmap ref GameObject) (e : GameEngine)
    (ss : gmap ref Scene) (n : ref) (obj r : ref) (w : World) :
  objects w = m ->
  attached_if_player w r = true \/ r = obj ->
  attached_if_player
    (mkWorld e (alter (set_obj_engine true) obj m) ss n) r = true.
Proof.
  intros <- H. unfold attached_if_player in *. simpl.
  destruct (decide (obj = r)) as [->|Hne].
  - rewrite lookup_alter_eq. destruct (objects w !! r) as [o|]; [|done].
    simpl. by destruct (obj_kind o).
  - rewrite lookup_alter_ne by done. destruct H; [done|congruence].
Qed.

(** C10. For a scene whose engine is set, Scene.addGameObject(obj)
    appends obj to the list of the scene and to the list of the engine.
    When that scene is the active one, the next engine.update(dt) calls
    obj.update two times more than the lists held obj before: twice for
    an object that was in neither list, once through the scene and once
    through the list of the engine. *)
Theorem scene_addGameObject_double_update
    (w : World) (s : ref) (sc : Scene) (obj : ref) (o : GameObject) (dt : Q) :
  sceneStore w !! s = Some sc ->
  scene_engine sc = true ->
  objects w !! obj = Some o ->
  exists (w1 : World) (sc1 : Scene),
    Scene_addGameObject s obj w = Return tt w1 [] /\
    sceneStore w1 !! s = Some sc1 /\
    scene_gameObjects sc1 = scene_gameObjects sc ++ [obj] /\
    gameObjects (engine w1) = gameObjects (engine w) ++ [obj] /\
    (currentScene (engine w) = Some s ->
     can_update w = true ->
     exists (w2 : World) (tr : list effect),
       GameEngine_update dt w1 = Return tt w2 (EngineUpdate dt :: tr) /\
       updateCalls obj tr =
         (occurrences obj (scene_gameObjects sc) +
          occurrences obj (gameObjects (engine w)) + 2)%nat /\
       (obj ∉ scene_gameObjects sc -> obj ∉ gameObjects (engine w) ->
        updateCalls obj tr = 2%nat)).
Proof.
  intros Hs He Ho.
  eexists _, _. split; [apply (Scene_addGameObject_attached w s sc obj Hs He)|].
  split; [simpl; by rewrite lookup_alter_eq, Hs|].
  split; [done|]. split; [done|].
  intros Hcur Hcan.
  match goal with |- context [GameEngine_update dt ?x] => set (w1 := x) end.
  assert (Hcan1 : can_update w1 = true).
  { unfold can_update in *. simpl. rewrite Hcur in *.
    rewrite lookup_alter_eq, Hs in *. simpl.
    apply andb_true_iff in Hcan as [Hglob Hscene].
    apply andb_true_iff in Hscene as [Hall Hscan].
    rewrite !forallb_app, !andb_true_iff. simpl. rewrite !andb_true_r.
    repeat split.
    - rewrite forallb_forall in *. intros r Hr.
      eapply attached_after_engine_set; [done|]. left. by apply Hglob.
    - eapply attached_after_engine_set; [done|]. by right.
    - rewrite forallb_forall in *. intros r Hr.
      eapply attached_after_engine_set; [done|]. left. by apply Hall.
    - eapply attached_after_engine_set; [done|]. by right.
    - done. }
  destruct (GameEngine_update_spec w1 obj dt Hcan1) as (w2 & tr & E & F & T & C).
  exists w2, tr. split; [done|].
  assert (Hcount : updateCalls obj tr =
            (occurrences obj (scene_gameObjects sc) +
             occurrences obj (gameObjects (engine w)) + 2)%nat).
  { rewrite C.
    - unfold active_scene_objects. simpl. rewrite Hcur, lookup_alter_eq, Hs.
      simpl. rewrite !occurrences_snoc. lia.
    - simpl. rewrite lookup_alter_eq, Ho. by eexists. }
  split; [done|].
  intros H1 H2. rewrite Hcount, !occurrences_not_elem by done. done.
Qed.

(** ** The frame scheduler *)

Lemma updateArgs_update_effect (tr : list effect) :
  Forall update_effect tr -> updateArgs tr = [].
Proof. induction 1 as [|e tr He _ IH]; simpl; [done|]. by destruct e. Qed.

Lemma updateArgs_app (t1 t2 : list effect) :
  updateArgs (t1 ++ t2) = updateArgs t1 ++ updateArgs t2.
Proof.
  induction t1 as [|e t1 IH]; simpl; [done|].
  destruct e; simpl; by rewrite ?IH.
Qed.

#[export] Hint Resolve Scene_update_dispatch_frame : sat.

(** engine.update(dt) from any world: it is entered once, keeps the
    frame and makes only update calls, also when a hook throws. *)
Lemma GameEngine_update_any (w : World) (dt : Q) :
  exists mid : list effect,
    trace_of (GameEngine_update dt w) = EngineUpdate dt :: mid /\
    Forall update_effect mid /\
    frame w (world_of (GameEngine_update dt w)).
Proof.
  unfold GameEngine_update. rewrite run_tell_bind.
  match goal with |- context [after_calls _ (?m w)] =>
    assert (Hm : sat update_frame m) end.
  { repeat sat_step.
    intros w0. split; [|constructor]. split; try done.
    intros r. apply same_shape_refl. }
  destruct (Hm w) as [F T].
  rewrite trace_of_after_calls, world_of_after_calls. eauto.
Qed.

(** C2, as amended.  A tick of the running loop calls update once, with
    deltaTime = now - lastTime exactly as computed (there is no clamp),
    and sets lastTime to now; when no hook throws, render() and the
    request for the next frame follow.  The delta is negative exactly
    when now < lastTime and non-negative exactly when lastTime <= now. *)
Theorem gameLoop_passes_raw_delta (w : World) (now : Q) :
  isRunning (engine w) = true ->
  let dt := now - lastTime (engine w) in
  let out := GameEngine_gameLoop now w in
  updateArgs (trace_of out) = [dt] /\
  lastTime (engine (world_of out)) = now /\
  (can_update w = true ->
   exists (w' : World) (mid : list effect),
     out = Return tt w'
             (EngineUpdate dt :: mid ++ [EngineRender; RequestAnimationFrame]) /\
     Forall update_effect mid) /\
  (dt < 0 <-> now < lastTime (engine w)) /\
  (0 <= dt <-> lastTime (engine w) <= now).
Proof.
  intros Hrun dt out.
  assert (Hout : out =
            (GameEngine_update dt ;; GameEngine_render ;;
             tell [RequestAnimationFrame])
              (set_engine (set_lastTime now (engine w)) w)).
  { unfold out, GameEngine_gameLoop. mstep. rewrite Hrun. simpl. by mstep. }
  set (w0 := set_engine (set_lastTime now (engine w)) w) in *.
  destruct (GameEngine_update_any w0 dt) as (mid & Etr & T & F).
  assert (Hshape :
    match out with
    | Return _ w' tr =>
        tr = EngineUpdate dt :: mid ++ [EngineRender; RequestAnimationFrame]
    | Throw w' tr => tr = EngineUpdate dt :: mid
    end /\ lastTime (engine (world_of out)) = now).
  { rewrite Hout, run_bind.
    destruct (GameEngine_update dt w0) as [[] w1 t1|w1 t1]; simpl in *.
    - subst t1. split; [done|]. by rewrite (frame_lastTime _ _ F).
    - subst t1. split; [done|]. by rewrite (frame_lastTime _ _ F). }
  destruct Hshape as [Hshape Hlast].
  split; [|split; [done|split; [|split]]].
  - destruct out as [[] w' tr|w' tr]; simpl in *; subst tr; simpl;
      rewrite ?updateArgs_app, (updateArgs_update_effect mid T); done.
  - intros Hcan.
    destruct (GameEngine_update_spec w0 0%nat dt) as (w1 & tr & E & _ & T1 & _);
      [exact Hcan|].
    exists w1, tr. split; [|done].
    rewrite Hout, run_bind, E. reflexivity.
  - unfold dt. split; intros H; lra.
  - unfold dt. split; intros H; lra.
Qed.

(** ** Scene activation *)

#[export] Instance silent_compositional : Compositional silent.
Proof.
  split.
  - by intros w.
  - intros w1 w2 w3 t1 t2 [C1 ->] [C2 ->]. split; [congruence|done].
Qed.

Lemma silent_new (o : GameObject) : sat silent (new o).
Proof. by intros w. Qed.

Lemma silent_new_callback : sat silent new_callback.
Proof. by intros w. Qed.

Lemma silent_modify_object (r : ref) (f : GameObject -> GameObject) :
  sat silent (modify_object r f).
Proof. by intros w. Qed.

Lemma silent_modify_scene (r : ref) (f : Scene -> Scene) :
  sat silent (modify_scene r f).
Proof. by intros w. Qed.

Lemma silent_modify_engine (f : GameEngine -> GameEngine) :
  (forall e, currentScene (f e) = currentScene e) ->
  sat silent (modify_engine f).
Proof. intros H w. split; [apply H|done]. Qed.

#[export] Hint Resolve silent_new silent_new_callback silent_modify_object
  silent_modify_scene : sat.

Lemma GameEngine_addGameObject_silent (obj : ref) :
  sat silent (GameEngine_addGameObject obj).
Proof.
  by intros w.
Qed.

#[export] Hint Resolve GameEngine_addGameObject_silent : sat.

Lemma Scene_addGameObject_silent (self obj : ref) :
  sat silent (Scene_addGameObject self obj).
Proof. unfold Scene_addGameObject. repeat sat_step. Qed.

#[export] Hint Resolve Scene_addGameObject_silent : sat.

Lemma GameScene_createItem_silent (self : ref) (x y : Q) (data : ItemData) :
  sat silent (GameScene_createItem self x y data).
Proof. unfold GameScene_createItem. repeat sat_step. Qed.

#[export] Hint Resolve GameScene_createItem_silent : sat.

Lemma GameScene_createItems_silent (self : ref) :
  sat silent (GameScene_createItems self).
Proof. unfold GameScene_createItems. repeat sat_step. Qed.

Lemma GameScene_setupEventListeners_silent (self : ref) :
  sat silent (GameScene_setupEventListeners self).
Proof.
  unfold GameScene_setupEventListeners. repeat sat_step;
    try by apply silent_modify_engine.
Qed.

#[export] Hint Resolve GameScene_createItems_silent
  GameScene_setupEventListeners_silent : sat.

Lemma GameScene_init_silent (self : ref) : sat silent (GameScene_init self).
Proof. unfold GameScene_init. repeat sat_step. Qed.

(** C3, as amended.  Every call setScene(name) with a registered name
    makes the scene the active one and calls its init() once, whether or
    not that scene was already active: init() runs once per call, not
    once per activation. *)
Theorem setScene_inits_on_every_call
    (w : World) (name : string) (s : ref) (sc : Scene) :
  scenes (engine w) !! name = Some s ->
  sceneStore w !! s = Some sc ->
  let out := GameEngine_setScene name w in
  initCalls s (trace_of out) = 1%nat /\
  trace_of out = [Init s] /\
  currentScene (engine (world_of out)) = Some s.
Proof.
  intros Hname Hs out. unfold out, GameEngine_setScene.
  mstep. rewrite Hname. mstep. unfold Scene_init. mstep. simpl.
  rewrite Hs. rewrite run_tell_bind.
  rewrite trace_of_after_calls, world_of_after_calls.
  assert (H : forall m : M unit, sat silent m ->
            forall w0, currentScene (engine w0) = Some s ->
            initCalls s ([Init s] ++ trace_of (m w0)) = 1%nat /\
            [Init s] ++ trace_of (m w0) = [Init s] /\
            currentScene (engine (world_of (m w0))) = Some s).
  { intros m Hm w0 Hc. destruct (Hm w0) as [C ->]. simpl.
    rewrite decide_True by done. split; [done|]. split; [done|]. congruence. }
  destruct (scene_kind sc).
  - apply (H (mret tt)); [|done]. apply sat_ret. typeclasses eauto.
  - apply H; [apply GameScene_init_silent|done].
Qed.

(** ** The properties on states of the game *)

(** The inventory is full, the key is hovered and clicked: after the
    next frame the key is marked collected although the inventory did
    not take it. *)
Lemma full_inventory_item_is_lost :
  let w := full_inventory_click in
  let w' := world_of (GameEngine_gameLoop 16 w) in
  is_collected w 2 = false /\
  length (items (inventory (engine w))) = maxItems (inventory (engine w)) /\
  (Inventory_addItem key_data (inventory (engine w))).1.1 = false /\
  Item_hover (mouse (engine w)) (object_at w 2) = true /\
  mouse_clicked (mouse (engine w)) = true /\
  is_collected (world_of (Item_update 2 16 w)) 2 = true /\
  is_collected w' 2 = true /\
  Inventory_hasItem (name key_data) (inventory (engine w')) = false.
Proof. vm_compute. repeat split. Qed.

(** The same state, through the update of the key alone. *)
Lemma Item_update_full_inventory_witness :
  exists w' : World,
    Item_update 2 16 full_inventory_click = Return tt w' [] /\
    is_collected w' 2 = true /\
    inventory (engine w') = inventory (engine full_inventory_click) /\
    (forall (w2 : World) (dt2 : Q),
        is_collected w2 2 = true -> Item_update 2 dt2 w2 = Return tt w2 []).
Proof.
  apply (Item_update_full_inventory full_inventory_click 2%nat
           (object_at full_inventory_click 2) key_data false 16);
    vm_compute; first [reflexivity | lia].
Defined.

(** The clock goes back from 100 to 50: update receives -50. *)
Lemma backward_clock_negative_delta :
  let w := started_game 100 in
  isRunning (engine w) = true /\
  lastTime (engine w) = 100 /\
  exists dt : Q,
    updateArgs (trace_of (GameEngine_gameLoop 50 w)) = [dt] /\ dt < 0.
Proof.
  split; [reflexivity|]. split; [reflexivity|].
  exists (50 - 100). split; [by vm_compute|reflexivity].
Qed.

(** The second frame of the game, 16 ms after the first. *)
Lemma gameLoop_passes_raw_delta_witness :
  updateArgs (trace_of (GameEngine_gameLoop 16 (started_game 0))) = [16 - 0] /\
  lastTime (engine (world_of (GameEngine_gameLoop 16 (started_game 0)))) = 16.
Proof.
  destruct (gameLoop_passes_raw_delta (started_game 0) 16) as (H1 & H2 & _).
  - reflexivity.
  - rewrite H1. split; [|exact H2].
    assert (E : lastTime (engine (started_game 0)) = 0) by reflexivity.
    by rewrite E.
Defined.

(** setScene('game') on the active scene 'game' calls init() again; the
    objects of the scene are created a second time. *)
Lemma setScene_twice_inits_twice :
  let w1 := world_of (GameEngine_setScene "game" (initGame 800 600)) in
  currentScene (engine w1) = Some game_scene /\
  trace_of (GameEngine_setScene "game" w1) = [Init game_scene] /\
  initCalls game_scene
    (trace_of ((GameEngine_setScene "game" ;; GameEngine_setScene "game")
                 (initGame 800 600))) = 2%nat /\
  length (gameObjects (engine w1)) = 5%nat /\
  length (gameObjects (engine (world_of (GameEngine_setScene "game" w1))))
    = 10%nat.
Proof. vm_compute. repeat split. Qed.

(** setScene('game') while the game runs in the scene 'game'. *)
Lemma setScene_inits_on_every_call_witness :
  currentScene (engine (started_game 0)) = Some game_scene /\
  initCalls game_scene
    (trace_of (GameEngine_setScene "game" (started_game 0))) = 1%nat /\
  trace_of (GameEngine_setScene "game" (started_game 0)) = [Init game_scene] /\
  currentScene (engine (world_of (GameEngine_setScene "game" (started_game 0))))
    = Some game_scene.
Proof.
  split; [reflexivity|].
  apply (setScene_inits_on_every_call (started_game 0) "game" game_scene
           (scene_at (started_game 0) game_scene)); by vm_compute.
Defined.

(** The pointer on the corner (224, 174) of the key hovers it. *)
Lemma Item_update_hover_closed_witness :
  is_hovered (world_of (Item_update 2 16 pointer_on_corner)) 2 = true.
Proof.
  destruct (Item_update_hover_closed pointer_on_corner 2%nat
              (object_at pointer_on_corner 2) key_data false 16)
    as (_ & H & _); [by vm_compute..|].
  apply H; by vm_compute.
Defined.

(** One second of diagonal movement of the player of the game. *)
Lemma Player_update_diagonal_witness :
  exists (w' : World) (o' : GameObject),
    Player_update 1 1000 diagonal_keys = Return tt w' [] /\
    objects w' !! 1%nat = Some o' /\
    obj_x o' - obj_x (object_at diagonal_keys 1) == 141.4 /\
    obj_y o' - obj_y (object_at diagonal_keys 1) == 141.4.
Proof.
  destruct (Player_update_diagonal diagonal_keys 1%nat
              (object_at diagonal_keys 1) (mkDirection 0 0))
    as (w' & o' & E & Ho & _ & _ & Hx & Hy & _);
    [vm_compute; first [reflexivity | discriminate]..|].
  exists w', o'. split; [exact E|]. split; [exact Ho|].
  split; [exact Hx|exact Hy].
Defined.

(** A frame of 1000 seconds leaves the player on the canvas. *)
Lemma Player_update_clamps_witness :
  exists (w' : World) (o' : GameObject),
    Player_update 1 1000000 diagonal_keys = Return tt w' [] /\
    objects w' !! 1%nat = Some o' /\
    0 <= obj_x o' /\ obj_x o' <= width (engine w') - obj_width o' /\
    0 <= obj_y o' /\ obj_y o' <= height (engine w') - obj_height o'.
Proof.
  apply (Player_update_clamps diagonal_keys 1%nat
           (object_at diagonal_keys 1) 200 (mkDirection 0 0) 1000000);
    by vm_compute.
Defined.

(** Ten gems fill the empty inventory; the key is refused. *)
Lemma addItem_capacity_ten_witness :
  (Inventory_addItems (repeat gem_data 10) Inventory_new).1 = repeat true 10 /\
  (Inventory_addItem key_data
     (Inventory_addItems (repeat gem_data 10) Inventory_new).2).1.1 = false.
Proof.
  destruct (addItem_capacity_ten Inventory_new key_data (repeat gem_data 10)
              key_data) as (_ & _ & _ & H1 & _ & H2 & _); [reflexivity..|].
  by split.
Defined.

(** Handler 1 is subscribed and unsubscribed, handler 2 is subscribed:
    only handler 2 is called. *)
Lemma emit_calls_current_subscribers_witness :
  let p := ItemPayload key_data in
  let ops := [Subscribe "itemCollected" 2%nat] in
  EventSystem_emit "itemCollected" p (bus_after ops EventSystem_new)
    = [Called 2%nat p] /\
  EventSystem_emit "itemCollected" p EventSystem_new = [] /\
  Called 1%nat p ∉
    EventSystem_emit "itemCollected" p
      (bus_after ops
         (EventSystem_off "itemCollected" 1%nat
            (EventSystem_on "itemCollected" 1%nat EventSystem_new))).
Proof.
  intros p ops.
  destruct (emit_calls_current_subscribers EventSystem_new "itemCollected"
              p ops) as (Hall & Hnone & Hoff).
  split; [exact Hall|]. split; [by apply Hnone|].
  apply Hoff; [|reflexivity].
  apply (bool_decide_unpack _). by vm_compute.
Defined.

(** A new object added to the running game through its scene is
    updated twice by the next frame. *)
Lemma scene_addGameObject_double_update_witness :
  exists (w1 w2 : World) (tr : list effect),
    Scene_addGameObject game_scene 9 with_new_object = Return tt w1 [] /\
    GameEngine_update 16 w1 = Return tt w2 (EngineUpdate 16 :: tr) /\
    updateCalls 9 tr = 2%nat.
Proof.
  destruct (scene_addGameObject_double_update with_new_object game_scene
              (scene_at with_new_object game_scene) 9%nat
              (object_at with_new_object 9) 16)
    as (w1 & sc1 & E1 & _ & _ & _ & H); [by vm_compute..|].
  destruct H as (w2 & tr & E2 & _ & H2); [by vm_compute..|].
  exists w1, w2, tr. split; [done|]. split; [done|].
  apply H2; apply (bool_decide_unpack _); by vm_compute.
Defined.

(** ** Further properties of the engine *)


(** *** The event bus *)

Lemma remove_first_id (cb : callback) (l : list callback) :
  cb ∉ l -> remove_first cb l = l.
Proof.
  induction l as [|c l IH]; simpl; intros H; [done|].
  apply not_elem_of_cons in H as [Hne Hl].
  rewrite decide_False by congruence. by rewrite IH.
Qed.

Lemma indexOf_None (l : list nat) (x : nat) : x ∉ l -> indexOf l x = None.
Proof.
  induction l as [|c l IH]; simpl; intros H; [done|].
  apply not_elem_of_cons in H as [Hne Hl].
  rewrite decide_False by congruence. by rewrite IH.
Qed.

(** X2. Unsubscribing a handler that is not subscribed to the channel
    (or from a channel that does not exist) leaves the whole bus as it
    was. *)
Theorem off_unknown_is_noop
    (event : string) (cb : callback) (es : EventSystem) :
  cb ∉ subscribers event es ->
  EventSystem_off event cb es = es.
Proof.
  unfold subscribers, EventSystem_off. intros H.
  destruct (es !! event) as [l|]; [|done]. simpl in H.
  by rewrite indexOf_None.
Qed.

Lemma occurrences_remove_first_eq (cb : callback) (l : list callback) :
  occurrences cb (remove_first cb l) = pred (occurrences cb l).
Proof.
  induction l as [|c l IH]; simpl; [done|].
  destruct (decide (c = cb)) as [->|Hne].
  - rewrite occurrences_cons, decide_True by done. done.
  - rewrite !occurrences_cons, decide_False by done. simpl. apply IH.
Qed.

Lemma occurrences_remove_first_ne (cb c : callback) (l : list callback) :
  c <> cb -> occurrences c (remove_first cb l) = occurrences c l.
Proof.
  intros Hne. induction l as [|c' l IH]; simpl; [done|].
  destruct (decide (c' = cb)) as [->|Hne'].
  - rewrite occurrences_cons, decide_False by done. done.
  - rewrite !occurrences_cons. by rewrite IH.
Qed.

Lemma callCount_emit (cb : callback) (event : string) (data : payload)
    (es : EventSystem) :
  callCount cb (EventSystem_emit event data es) =
    occurrences cb (subscribers event es).
Proof.
  rewrite emit_subscribers.
  induction (subscribers event es) as [|c l IH]; simpl; [done|].
  by rewrite occurrences_cons, IH.
Qed.

(** X3. off removes one subscription only, the first one of that
    handler: the handler is called once less by later emits (a handler
    subscribed twice and unsubscribed once is still called once), every
    other handler is called as often as before, and the other channels
    are untouched. *)
Theorem off_removes_one_subscription
    (event : string) (cb : callback) (es : EventSystem) (data : payload) :
  callCount cb (EventSystem_emit event data (EventSystem_off event cb es)) =
    pred (callCount cb (EventSystem_emit event data es)) /\
  (forall c : callback, c <> cb ->
     callCount c (EventSystem_emit event data (EventSystem_off event cb es)) =
       callCount c (EventSystem_emit event data es)) /\
  (forall e' : string, e' <> event ->
     EventSystem_emit e' data (EventSystem_off event cb es) =
       EventSystem_emit e' data es) /\
  callCount cb
    (EventSystem_emit event data
       (EventSystem_off event cb
          (EventSystem_on event cb (EventSystem_on event cb es)))) =
    S (callCount cb (EventSystem_emit event data es)).
Proof.
  rewrite !callCount_emit.
  split; [|split; [|split]].
  - rewrite subscribers_off, decide_True by done.
    apply occurrences_remove_first_eq.
  - intros c Hne. rewrite !callCount_emit.
    rewrite subscribers_off, decide_True by done.
    by apply occurrences_remove_first_ne.
  - intros e' Hne. rewrite !emit_subscribers.
    by rewrite subscribers_off, decide_False.
  - rewrite subscribers_off, decide_True by done.
    rewrite occurrences_remove_first_eq.
    rewrite !subscribers_on, !decide_True by done.
    rewrite !occurrences_snoc. done.
Qed.

Lemma subscribers_other_channels (event : string) (ops : list bus_op)
    (es : EventSystem) :
  other_channels event ops = true ->
  subscribers event (bus_after ops es) = subscribers event es.
Proof.
  intros H. rewrite subscribers_bus_after.
  induction ops as [|o ops IH] using rev_ind; [done|].
  unfold other_channels in H. rewrite forallb_app in H.
  apply andb_true_iff in H as [Hops Ho]. simpl in Ho. rewrite andb_true_r in Ho.
  unfold spec_subscribers in *. rewrite fold_left_app. simpl.
  rewrite IH by done.
  destruct o as [e c|e c]; simpl;
    apply negb_true_iff, bool_decide_eq_false in Ho;
    by rewrite decide_False.
Qed.

(** X4. Channels are isolated: whatever is subscribed or unsubscribed on
    other channels, emit on a channel calls the same handlers with the
    same payload. *)
Theorem emit_ignores_other_channels
    (event : string) (ops : list bus_op) (es : EventSystem) (data : payload) :
  other_channels event ops = true ->
  EventSystem_emit event data (bus_after ops es) =
    EventSystem_emit event data es.
Proof.
  intros H. by rewrite !emit_subscribers, subscribers_other_channels.
Qed.

(** Nothing is subscribed on a new bus: off leaves it empty. *)
Lemma off_unknown_is_noop_witness :
  EventSystem_off "click" 1%nat EventSystem_new = EventSystem_new.
Proof.
  apply (off_unknown_is_noop "click" 1%nat EventSystem_new).
  vm_compute. apply not_elem_of_nil.
Defined.

(** Handler 1 subscribed twice and handler 2 once to click: after one
    off, each is called once, and keydown is as before. *)
Lemma off_removes_one_subscription_witness :
  let es := EventSystem_on "click" 1%nat
              (EventSystem_on "click" 2%nat
                 (EventSystem_on "click" 1%nat EventSystem_new)) in
  let p := ClickPayload 0 0 in
  callCount 1%nat (EventSystem_emit "click" p (EventSystem_off "click" 1%nat es))
    = 1%nat /\
  callCount 2%nat (EventSystem_emit "click" p (EventSystem_off "click" 1%nat es))
    = 1%nat /\
  EventSystem_emit "keydown" p (EventSystem_off "click" 1%nat es) = [].
Proof.
  intros es p.
  destruct (off_removes_one_subscription "click" 1%nat es p)
    as (H1 & H2 & H3 & _).
  split; [exact H1|]. split.
  - exact (H2 2%nat ltac:(discriminate)).
  - exact (H3 "keydown" ltac:(discriminate)).
Defined.

(** Subscribing to keydown does not change who is called on click. *)
Lemma emit_ignores_other_channels_witness :
  let es := EventSystem_on "click" 1%nat EventSystem_new in
  EventSystem_emit "click" (ClickPayload 0 0)
    (bus_after [Subscribe "keydown" 3%nat; Unsubscribe "keyup" 1%nat] es) =
  [Called 1%nat (ClickPayload 0 0)].
Proof.
  intros es.
  exact (emit_ignores_other_channels "click"
           [Subscribe "keydown" 3%nat; Unsubscribe "keyup" 1%nat] es
           (ClickPayload 0 0) eq_refl).
Defined.

(** *** The inventory *)

Lemma addItems_all_refused (l : list ItemData) (inv : Inventory) :
  (maxItems inv <= length (items inv))%nat ->
  Inventory_addItems l inv = (repeat false (length l), inv).
Proof.
  intros H. induction l as [|item l IH]; simpl; [done|].
  rewrite addItem_full by done. by rewrite IH.
Qed.

(** X5. Adding a list of items one after the other keeps, in order, as
    many of them as there is room for and refuses all the others; the
    length never exceeds maxItems. *)
Theorem addItems_keeps_what_fits (l : list ItemData) (inv : Inventory) :
  (length (items inv) <= maxItems inv)%nat ->
  let room := (maxItems inv - length (items inv))%nat in
  (Inventory_addItems l inv).1 =
    repeat true (min room (length l)) ++ repeat false (length l - room) /\
  items (Inventory_addItems l inv).2 = items inv ++ take room l /\
  maxItems (Inventory_addItems l inv).2 = maxItems inv /\
  (length (items (Inventory_addItems l inv).2) <= maxItems inv)%nat.
Proof.
  revert inv. induction l as [|item l IH]; intros inv Hinv room.
  - simpl. rewrite Nat.min_0_r, take_nil. simpl. rewrite app_nil_r. auto.
  - destruct (decide (length (items inv) < maxItems inv)%nat) as [Hlt|Hge].
    + simpl. rewrite addItem_below by done.
      specialize (IH (mkInventory (items inv ++ [item]) (maxItems inv))).
      simpl in IH. rewrite length_app in IH. simpl in IH.
      destruct IH as (I1 & I2 & I3 & I4); [lia|].
      destruct (Inventory_addItems l _) as [oks inv2]. simpl in *.
      assert (Hroom : room = S (maxItems inv - (length (items inv) + 1))%nat)
        by (unfold room; lia).
      rewrite Hroom. simpl. rewrite I2 in I4.
      rewrite I1, I2, <- app_assoc in *. simpl in *. auto.
    + rewrite addItems_all_refused by lia. simpl.
      assert (Hroom : room = 0%nat) by (unfold room; lia).
      rewrite Hroom. simpl. rewrite app_nil_r. auto.
Qed.

Lemma addItems_keeps_what_fits_witness :
  (Inventory_addItems (repeat gem_data 12) Inventory_new).1 =
    repeat true 10 ++ repeat false 2 /\
  items (Inventory_addItems (repeat gem_data 12) Inventory_new).2 =
    repeat gem_data 10.
Proof.
  destruct (addItems_keeps_what_fits (repeat gem_data 12) Inventory_new)
    as (H1 & H2 & _); [simpl; lia|].
  split; [exact H1|exact H2].
Defined.

(** X6. hasItem after addItem: a name is found afterwards exactly when it
    was found before or the call succeeded and it is the name of the new
    item; a refused item is not found by it, and nothing is found in the
    empty inventory. *)
Theorem hasItem_after_addItem
    (item : ItemData) (inv : Inventory) (itemName : string) :
  Inventory_hasItem itemName (Inventory_addItem item inv).1.2 =
    Inventory_hasItem itemName inv ||
    ((Inventory_addItem item inv).1.1 && String.eqb (name item) itemName) /\
  ((Inventory_addItem item inv).1.1 = true ->
   Inventory_hasItem (name item) (Inventory_addItem item inv).1.2 = true) /\
  Inventory_hasItem itemName Inventory_new = false.
Proof.
  assert (H : Inventory_hasItem itemName (Inventory_addItem item inv).1.2 =
    Inventory_hasItem itemName inv ||
    ((Inventory_addItem item inv).1.1 && String.eqb (name item) itemName)).
  { unfold Inventory_addItem, Inventory_hasItem.
    destruct (_ <? _)%nat; simpl.
    - by rewrite existsb_app; simpl; rewrite orb_false_r.
    - by rewrite orb_false_r. }
  split; [exact H|]. split; [|done].
  intros Hok. unfold Inventory_addItem, Inventory_hasItem in *.
  destruct (_ <? _)%nat; simpl in *; [|done].
  rewrite existsb_app. simpl. by rewrite String.eqb_refl, orb_true_r.
Qed.

Lemma hasItem_after_addItem_witness :
  Inventory_hasItem (name key_data)
    (Inventory_addItem key_data Inventory_new).1.2 = true.
Proof.
  destruct (hasItem_after_addItem key_data Inventory_new (name key_data))
    as (_ & H & _).
  apply H. reflexivity.
Defined.

(** *** The frame scheduler *)

Lemma gameLoop_stopped (w : World) (now : Q) :
  isRunning (engine w) = false ->
  GameEngine_gameLoop now w = Return tt w [].
Proof. intros H. unfold GameEngine_gameLoop. mstep. by rewrite H. Qed.

Lemma ticks_stopped (times : list Q) (w : World) :
  isRunning (engine w) = false ->
  GameEngine_ticks times w = Return tt w [].
Proof.
  intros H. unfold GameEngine_ticks.
  induction times as [|t times IH]; simpl; [done|].
  by rewrite run_bind, gameLoop_stopped, IH.
Qed.

(** X7. stop() is the only cancellation and it is enough: after stop(),
    any number of pending ticks update nothing, render nothing and
    request no further frame; the world stays as stop() left it. *)
Theorem ticks_after_stop_do_nothing (w : World) (times : list Q) :
  (GameEngine_stop ;; GameEngine_ticks times) w =
    Return tt (set_engine (set_isRunning false (engine w)) w) [].
Proof.
  unfold GameEngine_stop. mstep. by apply ticks_stopped.
Qed.

(** A tick of the running loop. *)
Lemma gameLoop_running (w : World) (now : Q) :
  isRunning (engine w) = true ->
  let dt := now - lastTime (engine w) in
  let out := GameEngine_gameLoop now w in
  updateArgs (trace_of out) = [dt] /\
  lastTime (engine (world_of out)) = now /\
  isRunning (engine (world_of out)) = true /\
  (can_update w = true ->
   exists (w' : World) (mid : list effect),
     out = Return tt w'
             (EngineUpdate dt :: mid ++ [EngineRender; RequestAnimationFrame]) /\
     Forall update_effect mid).
Proof.
  intros Hrun dt out.
  assert (Hout : out =
            (GameEngine_update dt ;; GameEngine_render ;;
             tell [RequestAnimationFrame])
              (set_engine (set_lastTime now (engine w)) w)).
  { unfold out, GameEngine_gameLoop. mstep. rewrite Hrun. simpl. by mstep. }
  set (w0 := set_engine (set_lastTime now (engine w)) w) in *.
  destruct (GameEngine_update_any w0 dt) as (mid & Etr & T & F).
  split; [|split; [|split]].
  - rewrite Hout, run_bind.
    destruct (GameEngine_update dt w0) as [[] w1 t1|w1 t1]; simpl in *;
      subst t1; simpl; rewrite ?updateArgs_app, (updateArgs_update_effect mid T);
      done.
  - rewrite Hout, run_bind.
    destruct (GameEngine_update dt w0) as [[] w1 t1|w1 t1]; simpl in *;
      by rewrite (frame_lastTime _ _ F).
  - rewrite Hout, run_bind.
    destruct (GameEngine_update dt w0) as [[] w1 t1|w1 t1]; simpl in *;
      by rewrite (frame_isRunning _ _ F).
  - intros Hcan.
    destruct (GameEngine_update_spec w0 0%nat dt) as (w1 & tr & E & _ & T1 & _);
      [exact Hcan|].
    exists w1, tr. split; [|done].
    rewrite Hout, run_bind, E. reflexivity.
Qed.

(** X8. start() runs a first frame at once, whatever the state before:
    update is called once with deltaTime = now - now, that is 0, the
    loop is running afterwards with lastTime = now, and when the frame
    completes the next one is requested.  There is no guard: this also
    holds when the loop was already running. *)
Theorem start_runs_first_frame (w : World) (now : Q) :
  let out := GameEngine_start now w in
  updateArgs (trace_of out) = [now - now] /\
  now - now == 0 /\
  isRunning (engine (world_of out)) = true /\
  lastTime (engine (world_of out)) = now /\
  (can_update w = true ->
   exists (w' : World) (mid : list effect),
     out = Return tt w'
             (EngineUpdate (now - now) :: mid ++
              [EngineRender; RequestAnimationFrame]) /\
     Forall update_effect mid).
Proof.
  intros out.
  assert (Hout : out =
    GameEngine_gameLoop now
      (set_engine (set_lastTime now (set_isRunning true (engine w))) w)).
  { unfold out, GameEngine_start. by repeat mstep. }
  set (w0 := set_engine (set_lastTime now (set_isRunning true (engine w))) w) in *.
  destruct (gameLoop_running w0 now) as (H1 & H2 & H3 & H4); [done|].
  rewrite Hout. split; [exact H1|]. split; [ring|].
  split; [exact H3|]. split; [exact H2|].
  intros Hcan. apply H4. exact Hcan.
Qed.

Lemma start_runs_first_frame_witness :
  exists (w' : World) (mid : list effect),
    GameEngine_start 5 (started_game 0) =
      Return tt w'
        (EngineUpdate (5 - 5) :: mid ++ [EngineRender; RequestAnimationFrame]).
Proof.
  destruct (start_runs_first_frame (started_game 0) 5) as (_ & _ & _ & _ & H).
  destruct H as (w' & mid & E & _); [by vm_compute|].
  by exists w', mid.
Defined.

(** *** What a frame keeps *)

#[export] Instance update_keeps_compositional : Compositional update_keeps.
Proof.
  split.
  - intros w. repeat split; auto.
  - intros w1 w2 w3 t1 t2 (M1 & C1 & P1 & X1 & L1) (M2 & C2 & P2 & X2 & L2).
    repeat split.
    + congruence.
    + auto.
    + by etrans.
    + congruence.
    + auto.
Qed.

Lemma is_collected_flag (w : World) (r : ref) :
  is_collected w r = from_option collected_flag false (objects w !! r).
Proof. unfold is_collected, collected_flag. by destruct (objects w !! r). Qed.

Lemma update_keeps_alter (w : World) (r : ref) (f : GameObject -> GameObject) :
  (forall o, collected_flag o = true -> collected_flag (f o) = true) ->
  update_keeps w (set_objects (alter f r (objects w)) w) [].
Proof.
  intros Hf. repeat split; auto.
  intros i. rewrite !is_collected_flag. simpl.
  destruct (decide (r = i)) as [->|Hne].
  - rewrite lookup_alter_eq. destruct (objects w !! i); simpl; auto.
  - by rewrite lookup_alter_ne.
Qed.

Lemma update_keeps_modify_object (r : ref) (f : GameObject -> GameObject) :
  (forall o, collected_flag o = true -> collected_flag (f o) = true) ->
  sat update_keeps (modify_object r f).
Proof. intros Hf w. by apply update_keeps_alter. Qed.

Lemma collected_flag_Player_move (e : option GameEngine) (dt : Q) (o : GameObject) :
  collected_flag o = true -> collected_flag (Player_move e dt o) = true.
Proof.
  unfold collected_flag, Player_move. by destruct (obj_kind o) eqn:E; simpl; rewrite ?E.
Qed.

Lemma collected_flag_Player_clamp (e : GameEngine) (o : GameObject) :
  collected_flag o = true -> collected_flag (Player_clamp e o) = true.
Proof. done. Qed.

Lemma collected_flag_set_hovered (v : bool) (o : GameObject) :
  collected_flag o = true -> collected_flag (Item_set_hovered v o) = true.
Proof.
  unfold collected_flag, Item_set_hovered.
  by destruct (obj_kind o) eqn:E; simpl; rewrite ?E.
Qed.

Lemma collected_flag_set_collected (o : GameObject) :
  collected_flag o = true -> collected_flag (Item_set_collected true o) = true.
Proof.
  unfold collected_flag, Item_set_collected.
  by destruct (obj_kind o) eqn:E; simpl; rewrite ?E.
Qed.

Lemma Player_update_keeps (self : ref) (dt : Q) :
  sat update_keeps (Player_update self dt).
Proof.
  unfold Player_update. apply sat_bind; [typeclasses eauto|apply sat_get; typeclasses eauto|].
  intros w0. destruct (objects w0 !! self) as [o|]; [|apply sat_ret; typeclasses eauto].
  apply sat_bind; [typeclasses eauto| |intros _].
  - apply update_keeps_modify_object, collected_flag_Player_move.
  - destruct (obj_engine o).
    + apply update_keeps_modify_object, collected_flag_Player_clamp.
    + apply sat_throw. typeclasses eauto.
Qed.

Lemma Item_collect_keeps (self : ref) : sat update_keeps (Item_collect self).
Proof.
  intros w. unfold Item_collect. mstep.
  destruct (objects w !! self) as [o|] eqn:Ho; [|apply comp_refl].
  destruct (obj_kind o) as [| |data c h] eqn:Hk; try apply comp_refl.
  destruct c; [apply comp_refl|]. mstep.
  pose proof (update_keeps_alter w self (Item_set_collected true)
                collected_flag_set_collected) as (Hm & Hc & Hp & Hx & Hl).
  destruct (obj_engine o); [|by repeat split].
  unfold Inventory_addItem.
  destruct (length (items (inventory (engine w))) <? maxItems (inventory (engine w)))%nat
    eqn:Hlt.
  - repeat mstep. rewrite !world_of_after_calls.
    assert (Hroom : (length (items (inventory (engine w)) ++ [data]) <=
                      maxItems (inventory (engine w)))%nat).
    { rewrite length_app. simpl. apply Nat.ltb_lt in Hlt. lia. }
    destruct (truthy (dialogue data)); simpl;
      (split; [done|]; split; [exact Hc|];
       split; [by apply prefix_app_r|]; split; [done|]; by intros _).
  - repeat mstep. simpl. by repeat split.
Qed.
#[export] Hint Resolve Player_update_keeps Item_collect_keeps : sat.

Lemma Item_update_keeps (self : ref) (dt : Q) :
  sat update_keeps (Item_update self dt).
Proof.
  unfold Item_update. repeat sat_step.
  apply update_keeps_modify_object, collected_flag_set_hovered.
Qed.

#[export] Hint Resolve Item_update_keeps : sat.

Lemma GameObject_update_keeps (r : ref) (dt : Q) :
  sat update_keeps (GameObject_update r dt).
Proof.
  unfold GameObject_update. repeat sat_step.
  intros w. by repeat split.
Qed.

#[export] Hint Resolve GameObject_update_keeps : sat.

Lemma Scene_update_dispatch_keeps (s : ref) (dt : Q) :
  sat update_keeps (Scene_update_dispatch s dt).
Proof.
  unfold Scene_update_dispatch, GameScene_update, Scene_update.
  repeat sat_step.
Qed.

#[export] Hint Resolve Scene_update_dispatch_keeps : sat.

(** engine.update(dt) in three parts: the hooks, which keep what
    [update_keeps] says, and, only when they all return, the reset of
    the click. *)
Lemma GameEngine_update_keeps (w : World) (dt : Q) :
  exists w1 : World,
    update_keeps w w1 [] /\
    world_of (GameEngine_update dt w) =
      (if returns (GameEngine_update dt w)
       then set_engine
              (set_mouse (mkMouse (mouse_x (mouse (engine w1)))
                            (mouse_y (mouse (engine w1))) false) (engine w1)) w1
       else w1).
Proof.
  unfold GameEngine_update. rewrite run_tell_bind, run_get_bind.
  rewrite world_of_after_calls, returns_after_calls.
  rewrite run_bind.
  pose proof (sat_bind update_keeps
    (match currentScene (engine w) with
     | Some s => Scene_update_dispatch s dt
     | None => mret tt
     end)
    (fun _ => w' ← get; forEach (gameObjects (engine w'))
                 (fun obj => GameObject_update obj dt))) as Hsat.
  match type of Hsat with ?A -> ?B -> _ =>
    assert (HA : A) by (repeat sat_step);
    assert (HB : B) by (intros ?; repeat sat_step) end.
  specialize (Hsat HA HB w). clear HB.
  specialize (HA w).
  destruct (match currentScene (engine w) with
            | Some s => Scene_update_dispatch s dt
            | None => mret tt
            end w) as [[] w1 t1|w1 t1] eqn:E1.
  - rewrite world_of_after_calls, returns_after_calls.
    rewrite run_get_bind, run_bind.
    rewrite run_bind, E1, run_get_bind in Hsat.
    rewrite world_of_after_calls in Hsat.
    destruct (forEach (gameObjects (engine w1))
                (fun obj => GameObject_update obj dt) w1) as [[] w2 t2|w2 t2];
      simpl in *.
    + exists w2. split; [|done]. destruct Hsat as (?&?&?&?&?). by repeat split.
    + exists w2. split; [|done]. destruct Hsat as (?&?&?&?&?). by repeat split.
  - simpl in *. exists w1. split; [|done].
    destruct HA as (?&?&?&?&?). by repeat split.
Qed.

(** X9. The click flag lives for one completed update: when
    engine.update returns, mouse.clicked is false and the pointer
    position is as before; when a hook throws, the reset is skipped and
    the flag keeps its value, so that the same click is seen again by the
    next frame. *)
Theorem update_resets_click_when_it_completes (w : World) (dt : Q) :
  let out := GameEngine_update dt w in
  mouse_x (mouse (engine (world_of out))) = mouse_x (mouse (engine w)) /\
  mouse_y (mouse (engine (world_of out))) = mouse_y (mouse (engine w)) /\
  mouse_clicked (mouse (engine (world_of out))) =
    (if returns out then false else mouse_clicked (mouse (engine w))).
Proof.
  intros out. unfold out.
  destruct (GameEngine_update_keeps w dt) as (w1 & (Hm & _) & ->).
  destruct (returns (GameEngine_update dt w)); simpl; by rewrite Hm.
Qed.

(** X10. No frame undoes a collection: across engine.update, whether it
    completes or a hook throws, every collected item stays collected,
    the inventory keeps its items in place and is only extended at the
    end, and an inventory within its capacity stays within it. *)
Theorem update_never_undoes_collection (w : World) (dt : Q) :
  let w' := world_of (GameEngine_update dt w) in
  (forall r : ref, is_collected w r = true -> is_collected w' r = true) /\
  items (inventory (engine w)) `prefix_of` items (inventory (engine w')) /\
  maxItems (inventory (engine w')) = maxItems (inventory (engine w)) /\
  ((length (items (inventory (engine w))) <= maxItems (inventory (engine w)))%nat ->
   (length (items (inventory (engine w'))) <= maxItems (inventory (engine w')))%nat).
Proof.
  intros w'. unfold w'.
  destruct (GameEngine_update_keeps w dt) as (w1 & (Hm & Hc & Hp & Hx & Hl) & ->).
  destruct (returns (GameEngine_update dt w)); simpl; by repeat split.
Qed.

Lemma update_never_undoes_collection_witness :
  let w := world_of (Item_update 2 16 full_inventory_click) in
  is_collected (world_of (GameEngine_update 16 w)) 2 = true.
Proof.
  intros w.
  destruct (update_never_undoes_collection w 16) as (H & _).
  apply H. by vm_compute.
Defined.

(** *** Items *)

(** X11. A click on a hovered item that is not collected, while the
    inventory has room, collects it exactly once: the item data is
    appended to the inventory, the panel is refreshed, the subscribers
    of itemCollected are called in order with the item data, the
    dialogue of the item is shown when it has one, and a second update
    in the same frame (the game updates every item twice) does
    nothing. *)
Theorem Item_update_collects_once
    (w : World) (self : ref) (o : GameObject) (data : ItemData)
    (hovered : bool) (dt : Q) :
  objects w !! self = Some o ->
  obj_kind o = IsItem data false hovered ->
  obj_engine o = true ->
  (length (items (inventory (engine w))) < maxItems (inventory (engine w)))%nat ->
  Item_hover (mouse (engine w)) o = true ->
  mouse_clicked (mouse (engine w)) = true ->
  let tr :=
    UpdateUI (items (inventory (engine w)) ++ [data]) ::
    EventSystem_emit "itemCollected" (ItemPayload data) (eventSystem (engine w)) ++
    (if truthy (dialogue data)
     then [ShowDialogue (default "" (dialogue data))] else []) in
  exists w' : World,
    Item_update self dt w = Return tt w' tr /\
    (Item_update self dt ;; Item_update self dt) w = Return tt w' tr /\
    is_collected w' self = true /\
    is_hovered w' self = true /\
    items (inventory (engine w')) = items (inventory (engine w)) ++ [data].
Proof.
  intros Ho Hk He Hroom Hhov Hclick tr.
  assert (E : exists w', Item_update self dt w = Return tt w' tr /\
            objects w' = alter (Item_set_collected true) self
                           (alter (Item_set_hovered true) self (objects w)) /\
            items (inventory (engine w')) = items (inventory (engine w)) ++ [data]).
  { unfold Item_update. mstep. rewrite Ho, Hk, He, Hhov, Hclick. mstep. simpl.
    unfold Item_collect. mstep. simpl. rewrite lookup_alter_eq, Ho. simpl.
    unfold Item_set_hovered at 1. rewrite Hk. simpl. mstep.
    unfold Item_set_hovered at 1. rewrite Hk. simpl. rewrite He.
    rewrite addItem_below by done. repeat mstep. unfold tr.
    destruct (truthy (dialogue data)); simpl; eexists; (split; [reflexivity|]);
      by split. }
  destruct E as (w' & E & Hobj & Hitems).
  assert (Hcol : is_collected w' self = true).
  { unfold is_collected. rewrite Hobj, !lookup_alter_eq, Ho. simpl.
    unfold Item_set_collected, Item_set_hovered. by rewrite Hk. }
  exists w'. split; [exact E|]. split.
  - rewrite run_bind, E. simpl.
    rewrite (Item_update_collected w' self dt Hcol). simpl. by rewrite app_nil_r.
  - split; [exact Hcol|]. split; [|exact Hitems].
    unfold is_hovered. rewrite Hobj, !lookup_alter_eq, Ho. simpl.
    unfold Item_set_collected, Item_set_hovered. by rewrite Hk.
Qed.

(** A world like [full_inventory_click] but with an empty inventory. *)
Lemma Item_update_collects_once_witness :
  let w := world_of ((GameEngine_mousemove 210 160 ;; GameEngine_click)
                       (started_game 0)) in
  exists w' : World,
    (Item_update 2 16 ;; Item_update 2 16) w =
      Return tt w'
        [UpdateUI [key_data]; Called 6%nat (ItemPayload key_data);
         ShowDialogue (default "" (dialogue key_data))] /\
    items (inventory (engine w')) = [key_data].
Proof.
  intros w.
  destruct (Item_update_collects_once w 2%nat (object_at w 2) key_data false 16)
    as (w' & _ & E & _ & _ & Hitems);
    [vm_compute; first [reflexivity | lia]..|].
  exists w'. split; [exact E|exact Hitems].
Defined.

(** X12. Without a click on it nothing is collected: when the pointer is
    not over the item, or the button was not clicked, or the item has no
    engine, Item.update only refreshes the hover flag; the item stays
    uncollected, the engine (inventory, bus, pointer) is untouched and
    no call is made. *)
Theorem Item_update_without_click
    (w : World) (self : ref) (o : GameObject) (data : ItemData)
    (hovered : bool) (dt : Q) :
  objects w !! self = Some o ->
  obj_kind o = IsItem data false hovered ->
  Item_hover (mouse (engine w)) o = false \/
  mouse_clicked (mouse (engine w)) = false \/
  obj_engine o = false ->
  exists w' : World,
    Item_update self dt w = Return tt w' [] /\
    is_collected w' self = false /\
    engine w' = engine w /\
    is_hovered w' self =
      (if obj_engine o then Item_hover (mouse (engine w)) o else hovered).
Proof.
  intros Ho Hk Hno.
  set (h := if obj_engine o then Item_hover (mouse (engine w)) o else hovered).
  assert (Hcond : h && obj_engine o && mouse_clicked (mouse (engine w)) = false).
  { unfold h. destruct Hno as [H|[H|H]]; rewrite H;
      destruct (obj_engine o), (mouse_clicked (mouse (engine w)));
      simpl; rewrite ?andb_false_r; done. }
  exists (set_objects (alter (Item_set_hovered h) self (objects w)) w).
  split.
  - unfold Item_update. mstep. rewrite Ho, Hk. fold h. mstep. by rewrite Hcond.
  - unfold is_collected, is_hovered. simpl. rewrite lookup_alter_eq, Ho. simpl.
    unfold Item_set_hovered. rewrite Hk. by simpl.
Qed.

Lemma Item_update_without_click_witness :
  exists w' : World,
    Item_update 2 16 (started_game 0) = Return tt w' [] /\
    is_collected w' 2 = false.
Proof.
  destruct (Item_update_without_click (started_game 0) 2%nat
              (object_at (started_game 0) 2) key_data false 16)
    as (w' & E & Hc & _);
    [by vm_compute|by vm_compute|left; by vm_compute|].
  exists w'. split; [exact E|exact Hc].
Defined.

(** *** The player *)

(** X13. The direction of the player after normalisation has length at
    most 1 for every state of the keys (1 along an axis, 0.707 on each
    axis of a diagonal), and opposite keys do not cancel: right wins over
    left and down wins over up. *)
Theorem Player_direction_normalised (e : GameEngine) :
  let right := pressed (keys e) "ArrowRight" || pressed (keys e) "KeyD" in
  let left := pressed (keys e) "ArrowLeft" || pressed (keys e) "KeyA" in
  let down := pressed (keys e) "ArrowDown" || pressed (keys e) "KeyS" in
  let up := pressed (keys e) "ArrowUp" || pressed (keys e) "KeyW" in
  let d := Player_normalize (Player_direction (Some e)) in
  dir_x d * dir_x d + dir_y d * dir_y d <= 1 /\
  (right = true -> 0 < dir_x d) /\
  (right = false -> left = true -> dir_x d < 0) /\
  (right = false -> left = false -> dir_x d == 0) /\
  (down = true -> 0 < dir_y d) /\
  (down = false -> up = true -> dir_y d < 0) /\
  (down = false -> up = false -> dir_y d == 0).
Proof.
  intros right left down up d. unfold d, Player_direction.
  fold right left down up.
  destruct right, left, down, up; vm_compute;
    repeat split; intros; first [discriminate | reflexivity].
Qed.

Lemma Player_direction_normalised_witness :
  let d := Player_normalize (Player_direction (Some (engine diagonal_keys))) in
  0 < dir_x d /\ 0 < dir_y d.
Proof.
  intros d.
  destruct (Player_direction_normalised (engine diagonal_keys))
    as (_ & Hx & _ & _ & Hy & _).
  split; [apply Hx|apply Hy]; by vm_compute.
Defined.

(** X14. Player.update on a player whose engine is not set throws, after
    its first part ran: the keys were not read, so the direction is
    (0, 0) and the position has the value it had, and the engine is
    untouched. *)
Theorem Player_update_without_engine
    (w : World) (self : ref) (o : GameObject) (speed : Q) (d : Direction)
    (dt : Q) :
  objects w !! self = Some o ->
  obj_kind o = IsPlayer speed d ->
  obj_engine o = false ->
  exists (w' : World) (o' : GameObject),
    Player_update self dt w = Throw w' [] /\
    objects w' !! self = Some o' /\
    obj_x o' == obj_x o /\ obj_y o' == obj_y o /\
    obj_kind o' = IsPlayer speed (mkDirection 0 0) /\
    engine w' = engine w.
Proof.
  intros Ho Hk He. eexists _, _. split.
  - unfold Player_update. mstep. rewrite Ho, He. mstep. reflexivity.
  - simpl. rewrite lookup_alter_eq, Ho. simpl. split; [reflexivity|].
    unfold Player_move. rewrite Hk. simpl.
    split; [field|]. split; [field|]. done.
Qed.

Lemma Player_update_without_engine_witness :
  exists (w' : World) (o' : GameObject),
    Player_update 9 16 (world_of (new (Player_new 10 20) (started_game 0)))
      = Throw w' [] /\
    objects w' !! 9%nat = Some o' /\
    obj_x o' == 10 /\ obj_y o' == 20.
Proof.
  destruct (Player_update_without_engine
              (world_of (new (Player_new 10 20) (started_game 0))) 9%nat
              (Player_new 10 20) 200 (mkDirection 0 0) 16)
    as (w' & o' & E & Ho & Hx & Hy & _); [by vm_compute..|].
  exists w', o'. split; [exact E|]. split; [exact Ho|].
  split; [exact Hx|exact Hy].
Defined.

(** *** Scenes and registration *)

Lemma Scene_addGameObject_unregistered (w : World) (s : ref) (sc : Scene)
    (obj : ref) :
  sceneStore w !! s = Some sc ->
  scene_engine sc = false ->
  Scene_addGameObject s obj w =
    Return tt
      (set_sceneStore
         (alter (fun s => set_scene_gameObjects (scene_gameObjects s ++ [obj]) s)
            s (sceneStore w)) w) [].
Proof.
  intros Hs He. unfold Scene_addGameObject. mstep. rewrite Hs. mstep.
  by rewrite He.
Qed.

Lemma run_bind_assoc {A B C} (m : M A) (f : A -> M B) (g : B -> M C)
    (w : World) :
  ((m ≫= f) ≫= g) w = (m ≫= (fun a => f a ≫= g)) w.
Proof.
  rewrite !run_bind. destruct (m w) as [a w1 t1|w1 t1]; [|done].
  rewrite run_bind. destruct (f a w1) as [b w2 t2|w2 t2]; simpl; [|done].
  by rewrite after_calls_app.
Qed.

Lemma run_throw_bind {A B} (k : A -> M B) (w : World) :
  (throw ≫= k) w = Throw w [].
Proof. reflexivity. Qed.

(** Running a sequence of steps on a world. *)
Ltac mrun :=
  repeat first [ rewrite run_bind_assoc | mstep | rewrite after_calls_nil
               | rewrite run_throw_bind ].

(** X15. An object added to a scene before the scene is registered with
    addScene is not registered with the engine and does not get its
    engine.  For a Player this is fatal: once the scene is registered
    and made active, the first engine.update throws in the update of
    that player, before the click flag is reset. *)
Theorem player_added_before_addScene_throws
    (w : World) (name : string) (s : ref) (sc : Scene)
    (p : ref) (o : GameObject) (speed : Q) (d : Direction) (dt : Q) :
  sceneStore w !! s = Some sc ->
  scene_engine sc = false ->
  scene_kind sc = IsScene ->
  scene_gameObjects sc = [] ->
  objects w !! p = Some o ->
  obj_kind o = IsPlayer speed d ->
  obj_engine o = false ->
  exists w' : World,
    (Scene_addGameObject s p ;;
     GameEngine_addScene name s ;;
     GameEngine_setScene name ;;
     GameEngine_update dt) w =
      Throw w' [Init s; EngineUpdate dt; ObjUpdate p dt] /\
    gameObjects (engine w') = gameObjects (engine w) /\
    mouse_clicked (mouse (engine w')) = mouse_clicked (mouse (engine w)) /\
    (exists o', objects w' !! p = Some o' /\ obj_engine o' = false).
Proof.
  intros Hs He Hk Hl Ho Hpk Hpe.
  eexists. split.
  - rewrite run_bind, (Scene_addGameObject_unregistered w s sc p Hs He).
    unfold GameEngine_addScene. mrun.
    unfold GameEngine_setScene. mrun. simpl. rewrite lookup_insert_eq. mrun.
    unfold Scene_init. mrun. simpl. rewrite !lookup_alter_eq, Hs. simpl.
    mrun. rewrite Hk. mrun.
    unfold GameEngine_update. mrun. simpl.
    unfold Scene_update_dispatch. mrun. simpl.
    rewrite !lookup_alter_eq, Hs. simpl. rewrite Hk.
    unfold Scene_update. mrun. simpl. rewrite !lookup_alter_eq, Hs. simpl.
    rewrite Hl. simpl. mrun.
    unfold GameObject_update. mrun. simpl. rewrite Ho. mrun. rewrite Hpk.
    unfold Player_update. mrun. simpl. rewrite Ho, Hpe. mrun. simpl.
    reflexivity.
  - simpl. split; [done|]. split; [done|].
    rewrite lookup_alter_eq, Ho. simpl. eexists. split; [done|].
    unfold Player_move. rewrite Hpk. by simpl.
Qed.

Lemma player_added_before_addScene_throws_witness :
  let w := mkWorld (GameEngine_new 800 600)
             {[ 1%nat := Player_new 100 100 ]} {[ 0%nat := Scene_new ]} 2%nat in
  exists w' : World,
    (Scene_addGameObject 0 1 ;;
     GameEngine_addScene "level" 0 ;;
     GameEngine_setScene "level" ;;
     GameEngine_update 16) w =
      Throw w' [Init 0%nat; EngineUpdate 16; ObjUpdate 1%nat 16].
Proof.
  intros w.
  destruct (player_added_before_addScene_throws w "level" 0%nat Scene_new
              1%nat (Player_new 100 100) 200 (mkDirection 0 0) 16)
    as (w' & H & _); [by vm_compute..|].
  exists w'. exact H.
Defined.

#[export] Instance registry_kept_compositional : Compositional registry_kept.
Proof.
  split.
  - by intros w.
  - intros w1 w2 w3 t1 t2 (S1 & C1 & ->) (S2 & C2 & ->).
    split; [congruence|]. split; [congruence|done].
Qed.

Lemma GameScene_init_registry (self : ref) :
  sat registry_kept (GameScene_init self).
Proof.
  assert (Hobj : forall r f, sat registry_kept (modify_object r f))
    by (by intros r f w).
  assert (Hscn : forall r f, sat registry_kept (modify_scene r f))
    by (by intros r f w).
  assert (Hnew : forall o, sat registry_kept (new o)) by (by intros o w).
  assert (Hcb : sat registry_kept new_callback) by (by intros w).
  assert (Hadd : forall s obj, sat registry_kept (Scene_addGameObject s obj)).
  { intros s obj. unfold Scene_addGameObject.
    apply sat_bind; [typeclasses eauto|apply sat_get; typeclasses eauto|].
    intros w0. destruct (sceneStore w0 !! s) as [sc|];
      [|apply sat_throw; typeclasses eauto].
    apply sat_bind; [typeclasses eauto|apply Hscn|]. intros _.
    destruct (scene_engine sc); [|apply sat_ret; typeclasses eauto].
    by intros w. }
  assert (Hitem : forall s x y data,
            sat registry_kept (GameScene_createItem s x y data)).
  { intros s x y data. unfold GameScene_createItem.
    apply sat_bind; [typeclasses eauto|apply Hnew|]. intros item.
    apply sat_bind; [typeclasses eauto|apply Hadd|]. intros _. apply Hscn. }
  assert (Hsub : forall f : EventSystem -> EventSystem,
            sat registry_kept
              (modify_engine (fun e => set_eventSystem (f (eventSystem e)) e)))
    by (by intros f w).
  unfold GameScene_init.
  apply sat_bind; [typeclasses eauto|apply Hnew|]. intros player.
  apply sat_bind; [typeclasses eauto|apply Hscn|]. intros _.
  apply sat_bind; [typeclasses eauto|apply Hadd|]. intros _.
  apply sat_bind; [typeclasses eauto| |intros _].
  - unfold GameScene_createItems.
    repeat (apply sat_bind; [typeclasses eauto|apply Hitem|intros _]).
    apply Hitem.
  - unfold GameScene_setupEventListeners.
    apply sat_bind; [typeclasses eauto|apply sat_get; typeclasses eauto|].
    intros w0. destruct (sceneStore w0 !! self) as [sc|];
      [|apply sat_throw; typeclasses eauto].
    destruct (scene_engine sc); [|apply sat_throw; typeclasses eauto].
    apply sat_bind; [typeclasses eauto|apply Hcb|]. intros cb1.
    apply sat_bind; [typeclasses eauto|apply Hsub|]. intros _.
    apply sat_bind; [typeclasses eauto|apply Hcb|]. intros cb2.
    apply sat_bind; [typeclasses eauto|apply Hsub|]. intros _.
    apply sat_bind; [typeclasses eauto|apply Hcb|]. intros cb3.
    apply Hsub.
Qed.

(** X16. setScene follows the registry of addScene: an unknown name is
    ignored (nothing is initialised, nothing changes); after addScene
    the name activates its scene and calls its init() once; and when a
    name is registered twice the scene registered last is the one
    activated. *)
Theorem setScene_follows_registry
    (w : World) (name : string) (s1 s2 : ref) (sc2 : Scene) :
  (scenes (engine w) !! name = None ->
   GameEngine_setScene name w = Return tt w []) /\
  (sceneStore w !! s2 = Some sc2 ->
   let out := (GameEngine_addScene name s1 ;;
               GameEngine_addScene name s2 ;;
               GameEngine_setScene name) w in
   trace_of out = [Init s2] /\
   currentScene (engine (world_of out)) = Some s2 /\
   scenes (engine (world_of out)) = <[name := s2]> (scenes (engine w))).
Proof.
  split.
  - intros H. unfold GameEngine_setScene. mstep. by rewrite H.
  - intros Hs out. unfold out, GameEngine_addScene. mrun.
    unfold GameEngine_setScene. mrun. simpl. rewrite lookup_insert_eq. mrun.
    unfold Scene_init. mrun. simpl.
    assert (Hsc : exists sc, alter (set_scene_engine true) s2
              (alter (set_scene_engine true) s1 (sceneStore w)) !! s2 = Some sc).
    { rewrite lookup_alter_eq.
      destruct (decide (s1 = s2)) as [->|Hne].
      - rewrite lookup_alter_eq, Hs. by eexists.
      - rewrite lookup_alter_ne, Hs by done. by eexists. }
    destruct Hsc as (sc & ->). rewrite run_tell_bind.
    rewrite trace_of_after_calls, world_of_after_calls.
    assert (H : forall m : M unit, sat registry_kept m ->
              forall w0, [Init s2] ++ trace_of (m w0) = [Init s2] /\
                currentScene (engine (world_of (m w0))) = currentScene (engine w0) /\
                scenes (engine (world_of (m w0))) = scenes (engine w0)).
    { intros m Hm w0. destruct (Hm w0) as (S & C & ->). auto. }
    destruct (scene_kind sc).
    + simpl. split; [done|]. split; [done|]. by rewrite insert_insert_eq.
    + match goal with |- context [GameScene_init s2 ?w0] =>
        destruct (H (GameScene_init s2) (GameScene_init_registry s2) w0)
          as (T & C & S) end.
      rewrite T, C, S. simpl. split; [done|]. split; [done|].
      by rewrite insert_insert_eq.
Qed.

Lemma setScene_follows_registry_witness :
  GameEngine_setScene "menu" (started_game 0) = Return tt (started_game 0) [] /\
  let out := (GameEngine_addScene "level" 9 ;;
              GameEngine_addScene "level" 0 ;;
              GameEngine_setScene "level") (started_game 0) in
  trace_of out = [Init 0%nat] /\
  currentScene (engine (world_of out)) = Some 0%nat.
Proof.
  destruct (setScene_follows_registry (started_game 0) "menu" 0%nat 0%nat
              (scene_at (started_game 0) 0)) as (H1 & _).
  destruct (setScene_follows_registry (started_game 0) "level" 9%nat 0%nat
              (scene_at (started_game 0) 0)) as (_ & H2).
  split; [apply H1; by vm_compute|].
  destruct H2 as (T & C & _); [by vm_compute|].
  split; [exact T|exact C].
Defined.

(** *** Removing an object from the engine *)

Lemma GameEngine_removeGameObject_run (obj : ref) (w : World) :
  GameEngine_removeGameObject obj w =
    Return tt
      (set_engine
         (set_gameObjects (remove_first obj (gameObjects (engine w))) (engine w))
         w) [].
Proof.
  unfold GameEngine_removeGameObject. mstep.
  rewrite <- indexOf_delete.
  destruct (indexOf (gameObjects (engine w)) obj); [done|].
  simpl. destruct w as [e ob ss n]. by destruct e.
Qed.

(** X17. removeGameObject only edits the list of the engine.  An object
    that is not in that list is ignored.  An object that was added
    through the active scene and is then removed from the engine keeps
    its place in the scene and its engine: it is still updated, once per
    frame instead of twice. *)
Theorem removeGameObject_leaves_scene
    (w : World) (s : ref) (sc : Scene) (obj : ref) (o : GameObject) (dt : Q) :
  sceneStore w !! s = Some sc ->
  scene_engine sc = true ->
  objects w !! obj = Some o ->
  currentScene (engine w) = Some s ->
  can_update w = true ->
  obj ∉ scene_gameObjects sc ->
  obj ∉ gameObjects (engine w) ->
  GameEngine_removeGameObject obj w = Return tt w [] /\
  exists (w1 w2 : World) (tr : list effect),
    (Scene_addGameObject s obj ;; GameEngine_removeGameObject obj) w =
      Return tt w1 [] /\
    gameObjects (engine w1) = gameObjects (engine w) /\
    active_scene_objects w1 = scene_gameObjects sc ++ [obj] /\
    obj_engine (object_at w1 obj) = true /\
    GameEngine_update dt w1 = Return tt w2 (EngineUpdate dt :: tr) /\
    updateCalls obj tr = 1%nat.
Proof.
  intros Hs He Ho Hcur Hcan Hns Hne.
  split.
  { rewrite GameEngine_removeGameObject_run, remove_first_id by done.
    destruct w as [e ob ss n]. by destruct e. }
  set (w1 := mkWorld
         (set_gameObjects (gameObjects (engine w)) (engine w))
         (alter (set_obj_engine true) obj (objects w))
         (alter (fun s => set_scene_gameObjects (scene_gameObjects s ++ [obj]) s)
            s (sceneStore w))
         (nextRef w)).
  assert (E1 : (Scene_addGameObject s obj ;; GameEngine_removeGameObject obj) w =
                 Return tt w1 []).
  { rewrite run_bind, (Scene_addGameObject_attached w s sc obj Hs He).
    rewrite GameEngine_removeGameObject_run. simpl.
    rewrite remove_first_snoc by done. reflexivity. }
  assert (Hcan1 : can_update w1 = true).
  { unfold can_update in *. simpl. rewrite Hcur in *.
    rewrite lookup_alter_eq, Hs in *. simpl.
    apply andb_true_iff in Hcan as [Hglob Hscene].
    apply andb_true_iff in Hscene as [Hall Hscan].
    rewrite !forallb_app, !andb_true_iff. simpl. rewrite !andb_true_r.
    repeat split.
    - rewrite forallb_forall in *. intros r Hr.
      eapply attached_after_engine_set; [done|]. left. by apply Hglob.
    - rewrite forallb_forall in *. intros r Hr.
      eapply attached_after_engine_set; [done|]. left. by apply Hall.
    - eapply attached_after_engine_set; [done|]. by right.
    - done. }
  destruct (GameEngine_update_spec w1 obj dt Hcan1) as (w2 & tr & E & F & T & C).
  exists w1, w2, tr. split; [exact E1|]. split; [done|].
  split.
  { unfold active_scene_objects. simpl. by rewrite Hcur, lookup_alter_eq, Hs. }
  split.
  { unfold object_at. simpl. by rewrite lookup_alter_eq, Ho. }
  split; [exact E|].
  rewrite C.
  - unfold active_scene_objects. simpl. rewrite Hcur, lookup_alter_eq, Hs.
    simpl. rewrite occurrences_snoc, !occurrences_not_elem by done. done.
  - simpl. rewrite lookup_alter_eq, Ho. by eexists.
Qed.

Lemma removeGameObject_leaves_scene_witness :
  exists (w1 w2 : World) (tr : list effect),
    (Scene_addGameObject game_scene 9 ;; GameEngine_removeGameObject 9)
      with_new_object = Return tt w1 [] /\
    GameEngine_update 16 w1 = Return tt w2 (EngineUpdate 16 :: tr) /\
    updateCalls 9 tr = 1%nat.
Proof.
  destruct (removeGameObject_leaves_scene with_new_object game_scene
              (scene_at with_new_object game_scene) 9%nat
              (object_at with_new_object 9) 16)
    as (_ & w1 & w2 & tr & E1 & _ & _ & _ & E2 & H);
    [by vm_compute|by vm_compute|by vm_compute|by vm_compute|by vm_compute
    |apply (bool_decide_unpack _); by vm_compute
    |apply (bool_decide_unpack _); by vm_compute|].
  exists w1, w2, tr. split; [exact E1|]. split; [exact E2|exact H].
Defined.

(** *** What GameScene.init creates *)

Lemma run_new_bind {B} (o : GameObject) (k : ref -> M B) (w : World) :
  (new o ≫= k) w =
    k (nextRef w)
      (mkWorld (engine w) (<[nextRef w := o]> (objects w)) (sceneStore w)
         (S (nextRef w))).
Proof. rewrite run_bind. apply after_calls_nil. Qed.

Lemma run_new_callback_bind {B} (k : callback -> M B) (w : World) :
  (new_callback ≫= k) w =
    k (nextRef w)
      (mkWorld (engine w) (objects w) (sceneStore w) (S (nextRef w))).
Proof. rewrite run_bind. apply after_calls_nil. Qed.

Lemma alter_lookup_insert {A} (f : A -> A) (i : nat) (x : A) (m : gmap nat A) :
  m !! i = Some x -> alter f i m = <[i := f x]> m.
Proof.
  intros H. apply map_eq. intros j. destruct (decide (i = j)) as [->|Hne].
  - by rewrite lookup_alter_eq, lookup_insert_eq, H.
  - by rewrite lookup_alter_ne, lookup_insert_ne.
Qed.

(** One block of createItems on a scene that has its engine. *)
Lemma GameScene_createItem_run (w : World) (s : ref) (sc : Scene)
    (x y : Q) (data : ItemData) :
  sceneStore w !! s = Some sc ->
  scene_engine sc = true ->
  GameScene_createItem s x y data w =
    Return tt
      (mkWorld
         (set_gameObjects (gameObjects (engine w) ++ [nextRef w]) (engine w))
         (<[nextRef w := set_obj_engine true (Item_new x y data)]> (objects w))
         (<[s := GameScene_push_item (nextRef w)
                   (set_scene_gameObjects (scene_gameObjects sc ++ [nextRef w]) sc)]>
            (sceneStore w))
         (S (nextRef w))) [].
Proof.
  intros Hs He. unfold GameScene_createItem. rewrite run_new_bind.
  rewrite run_bind.
  erewrite Scene_addGameObject_attached; [|exact Hs|exact He].
  rewrite after_calls_nil. unfold modify_scene, modify. simpl.
  f_equal. unfold set_sceneStore. simpl. f_equal.
  - by rewrite alter_insert_eq.
  - rewrite (alter_lookup_insert _ s sc (sceneStore w)) by done.
    by rewrite alter_insert_eq.
Qed.

Lemma GameScene_createItem_step (w : World) (s : ref) (l : list ref)
    (p : option ref) (its : list ref) (cg : bool) (x y : Q) (data : ItemData) :
  sceneStore w !! s = Some (mkScene true l (IsGameScene p its cg)) ->
  GameScene_createItem s x y data w =
    Return tt
      (mkWorld
         (set_gameObjects (gameObjects (engine w) ++ [nextRef w]) (engine w))
         (<[nextRef w := set_obj_engine true (Item_new x y data)]> (objects w))
         (<[s := mkScene true (l ++ [nextRef w])
                   (IsGameScene p (its ++ [nextRef w]) cg)]> (sceneStore w))
         (S (nextRef w))) [].
Proof.
  intros Hs. by erewrite GameScene_createItem_run; [|exact Hs|].
Qed.

(** GameScene.init on a scene that has its engine, step by step. *)
Lemma GameScene_init_run (w : World) (s : ref) (l : list ref)
    (p : option ref) (its : list ref) (cg : bool) :
  sceneStore w !! s = Some (mkScene true l (IsGameScene p its cg)) ->
  let n := nextRef w in
  GameScene_init s w =
    Return tt
      (mkWorld
         (set_eventSystem
            (EventSystem_on "cgEnded" (n + 7)%nat
               (EventSystem_on "cgPlayed" (n + 6)%nat
                  (EventSystem_on "itemCollected" (n + 5)%nat
                     (eventSystem (engine w)))))
            (set_gameObjects (gameObjects (engine w) ++ fresh_refs n 5)
               (engine w)))
         (<[(n + 4)%nat := set_obj_engine true (Item_new 300 400 specialItem_data)]>
            (<[(n + 3)%nat := set_obj_engine true (Item_new 600 200 potion_data)]>
               (<[(n + 2)%nat := set_obj_engine true (Item_new 400 300 gem_data)]>
                  (<[(n + 1)%nat := set_obj_engine true (Item_new 200 150 key_data)]>
                     (<[n := set_obj_engine true (Player_new 100 100)]>
                        (objects w))))))
         (<[s := mkScene true (l ++ fresh_refs n 5)
                   (IsGameScene (Some n) (its ++ fresh_refs (S n) 4) cg)]>
            (sceneStore w))
         (n + 8)%nat) [].
Proof.
  intros Hs n. unfold GameScene_init. rewrite run_new_bind. fold n.
  mrun. rewrite run_bind.
  erewrite (Scene_addGameObject_attached _ s
              (mkScene true l (IsGameScene (Some n) its cg)));
    [|simpl; by rewrite lookup_alter_eq, Hs|done].
  simpl. rewrite after_calls_nil.
  rewrite (alter_lookup_insert _ s (mkScene true l (IsGameScene p its cg))
             (sceneStore w)) by done.
  rewrite alter_insert_eq, alter_insert_eq. simpl.
  unfold GameScene_createItems. mrun.
  rewrite run_bind.
  erewrite GameScene_createItem_step; [|simpl; apply lookup_insert_eq].
  simpl. rewrite after_calls_nil, insert_insert_eq.
  mrun. rewrite run_bind.
  erewrite GameScene_createItem_step; [|simpl; apply lookup_insert_eq].
  simpl. rewrite after_calls_nil, insert_insert_eq.
  mrun. rewrite run_bind.
  erewrite GameScene_createItem_step; [|simpl; apply lookup_insert_eq].
  simpl. rewrite after_calls_nil, insert_insert_eq.
  mrun. rewrite run_bind.
  erewrite GameScene_createItem_step; [|simpl; apply lookup_insert_eq].
  simpl. rewrite after_calls_nil, insert_insert_eq.
  unfold GameScene_setupEventListeners. mrun. simpl.
  rewrite lookup_insert_eq. simpl.
  rewrite run_new_callback_bind. mrun.
  rewrite run_new_callback_bind. mrun.
  rewrite run_new_callback_bind. simpl.
  unfold modify_engine, modify. simpl.
  rewrite <- !app_assoc. simpl. unfold fresh_refs. simpl.
  replace (n + 1)%nat with (S n) by lia.
  replace (n + 2)%nat with (S (S n)) by lia.
  replace (n + 3)%nat with (S (S (S n))) by lia.
  replace (n + 4)%nat with (S (S (S (S n)))) by lia.
  replace (n + 5)%nat with (S (S (S (S (S n))))) by lia.
  replace (n + 6)%nat with (S (S (S (S (S (S n)))))) by lia.
  replace (n + 7)%nat with (S (S (S (S (S (S (S n))))))) by lia.
  replace (n + 8)%nat with (S (S (S (S (S (S (S (S n)))))))) by lia.
  reflexivity.
Qed.

(** setScene on a registered GameScene that has its engine. *)
Lemma setScene_GameScene (w : World) (name : string) (s : ref) (l : list ref)
    (p : option ref) (its : list ref) (cg : bool) :
  scenes (engine w) !! name = Some s ->
  sceneStore w !! s = Some (mkScene true l (IsGameScene p its cg)) ->
  let n := nextRef w in
  exists w' : World,
    GameEngine_setScene name w = Return tt w' [Init s] /\
    scenes (engine w') = scenes (engine w) /\
    currentScene (engine w') = Some s /\
    sceneStore w' =
      <[s := mkScene true (l ++ fresh_refs n 5)
               (IsGameScene (Some n) (its ++ fresh_refs (S n) 4) cg)]>
        (sceneStore w) /\
    gameObjects (engine w') = gameObjects (engine w) ++ fresh_refs n 5 /\
    eventSystem (engine w') =
      EventSystem_on "cgEnded" (n + 7)%nat
        (EventSystem_on "cgPlayed" (n + 6)%nat
           (EventSystem_on "itemCollected" (n + 5)%nat (eventSystem (engine w)))) /\
    objects w' =
      <[(n + 4)%nat := set_obj_engine true (Item_new 300 400 specialItem_data)]>
        (<[(n + 3)%nat := set_obj_engine true (Item_new 600 200 potion_data)]>
           (<[(n + 2)%nat := set_obj_engine true (Item_new 400 300 gem_data)]>
              (<[(n + 1)%nat := set_obj_engine true (Item_new 200 150 key_data)]>
                 (<[n := set_obj_engine true (Player_new 100 100)]>
                    (objects w))))) /\
    nextRef w' = (n + 8)%nat /\
    inventory (engine w') = inventory (engine w) /\
    mouse (engine w') = mouse (engine w).
Proof.
  intros Hname Hs n. eexists. split.
  - unfold GameEngine_setScene. mrun. rewrite Hname. mrun.
    unfold Scene_init. mrun. simpl. rewrite Hs. simpl. mrun.
    erewrite GameScene_init_run; [|simpl; exact Hs]. simpl. reflexivity.
  - simpl. fold n. repeat split; reflexivity.
Qed.

Lemma subscribers_after_init (event : string) (n : ref) (es : EventSystem) :
  subscribers event
    (EventSystem_on "cgEnded" (n + 7)%nat
       (EventSystem_on "cgPlayed" (n + 6)%nat
          (EventSystem_on "itemCollected" (n + 5)%nat es))) =
  subscribers event es ++
    (if decide (event = "itemCollected") then [(n + 5)%nat]
     else if decide (event = "cgPlayed") then [(n + 6)%nat]
     else if decide (event = "cgEnded") then [(n + 7)%nat]
     else []).
Proof.
  rewrite !subscribers_on.
  repeat case_decide; subst; try done; by rewrite ?app_nil_r.
Qed.

(** X18. GameScene.init on a scene that has its engine creates one
    player at (100, 100) and the four items, all with their engine set,
    under the next five references; it appends them, in that order, to
    the list of the scene and to the list of the engine, makes the new
    player the player of the scene, appends the items to its items,
    subscribes one new handler to each of itemCollected, cgPlayed and
    cgEnded, and leaves every older object, the registry and the
    inventory alone. *)
Theorem GameScene_init_creates
    (w : World) (s : ref) (sc : Scene)
    (p : option ref) (its : list ref) (cg : bool) :
  sceneStore w !! s = Some sc ->
  scene_engine sc = true ->
  scene_kind sc = IsGameScene p its cg ->
  let n := nextRef w in
  exists w' : World,
    GameScene_init s w = Return tt w' [] /\
    gameObjects (engine w') = gameObjects (engine w) ++ fresh_refs n 5 /\
    scene_at w' s =
      mkScene true (scene_gameObjects sc ++ fresh_refs n 5)
        (IsGameScene (Some n) (its ++ fresh_refs (S n) 4) cg) /\
    object_at w' n = set_obj_engine true (Player_new 100 100) /\
    object_at w' (n + 1) = set_obj_engine true (Item_new 200 150 key_data) /\
    object_at w' (n + 2) = set_obj_engine true (Item_new 400 300 gem_data) /\
    object_at w' (n + 3) = set_obj_engine true (Item_new 600 200 potion_data) /\
    object_at w' (n + 4) =
      set_obj_engine true (Item_new 300 400 specialItem_data) /\
    (forall r : ref, (r < n)%nat -> objects w' !! r = objects w !! r) /\
    (forall event : string,
        subscribers event (eventSystem (engine w')) =
          subscribers event (eventSystem (engine w)) ++
            (if decide (event = "itemCollected") then [(n + 5)%nat]
             else if decide (event = "cgPlayed") then [(n + 6)%nat]
             else if decide (event = "cgEnded") then [(n + 7)%nat]
             else [])) /\
    nextRef w' = (n + 8)%nat /\
    scenes (engine w') = scenes (engine w) /\
    currentScene (engine w') = currentScene (engine w) /\
    inventory (engine w') = inventory (engine w).
Proof.
  intros Hs He Hk n. destruct sc as [e l k]. simpl in *. subst e k.
  eexists. split; [apply (GameScene_init_run w s l p its cg Hs)|]. fold n.
  unfold scene_at, object_at. simpl.
  split; [done|]. split; [by rewrite lookup_insert_eq|].
  split.
  { rewrite !lookup_insert_ne by lia. by rewrite lookup_insert_eq. }
  split.
  { rewrite !lookup_insert_ne by lia. by rewrite lookup_insert_eq. }
  split.
  { rewrite !lookup_insert_ne by lia. by rewrite lookup_insert_eq. }
  split.
  { rewrite !lookup_insert_ne by lia. by rewrite lookup_insert_eq. }
  split; [by rewrite lookup_insert_eq|].
  split.
  { intros r Hr. by rewrite !lookup_insert_ne by lia. }
  split; [intros event; apply subscribers_after_init|].
  done.
Qed.

Lemma GameScene_init_creates_witness :
  exists w' : World,
    GameScene_init game_scene (initGame 800 600) = Return tt w' [] /\
    gameObjects (engine w') = [1; 2; 3; 4; 5]%nat /\
    nextRef w' = 9%nat.
Proof.
  destruct (GameScene_init_creates (initGame 800 600) game_scene
              (scene_at (initGame 800 600) game_scene) None [] false)
    as (w' & E & Hl & _ & _ & _ & _ & _ & _ & _ & _ & Hn & _);
    [by vm_compute..|].
  exists w'. split; [exact E|]. split; [exact Hl|exact Hn].
Defined.

(** *** Activating a GameScene again and again *)

Lemma setScene_GameScene_times (k : nat) (name : string) (s : ref) :
  forall (w : World) (l : list ref) (p : option ref) (its : list ref) (cg : bool),
  scenes (engine w) !! name = Some s ->
  sceneStore w !! s = Some (mkScene true l (IsGameScene p its cg)) ->
  exists (w' : World) (l' : list ref) (p' : option ref) (its' : list ref),
    repeatM k (GameEngine_setScene name) w = Return tt w' (repeat (Init s) k) /\
    sceneStore w' !! s = Some (mkScene true l' (IsGameScene p' its' cg)) /\
    length l' = (length l + 5 * k)%nat /\
    length its' = (length its + 4 * k)%nat /\
    length (gameObjects (engine w')) =
      (length (gameObjects (engine w)) + 5 * k)%nat /\
    length (subscribers "itemCollected" (eventSystem (engine w'))) =
      (length (subscribers "itemCollected" (eventSystem (engine w))) + k)%nat /\
    nextRef w' = (nextRef w + 8 * k)%nat.
Proof.
  induction k as [|k IH]; intros w l p its cg Hname Hs.
  - exists w, l, p, its. simpl. repeat split; try done; lia.
  - destruct (setScene_GameScene w name s l p its cg Hname Hs)
      as (w1 & E1 & Hsc & Hcur & Hst & Hgo & Hes & Hob & Hn & _).
    destruct (IH w1 (l ++ fresh_refs (nextRef w) 5) (Some (nextRef w))
                (its ++ fresh_refs (S (nextRef w)) 4) cg)
      as (w' & l' & p' & its' & E & Hs' & Hl & Hi & Hg & Hsub & Hn').
    { by rewrite Hsc. }
    { by rewrite Hst, lookup_insert_eq. }
    exists w', l', p', its'. split.
    { simpl. by rewrite run_bind, E1, E. }
    split; [exact Hs'|].
    rewrite Hl, Hi, Hg, Hsub, Hn', Hgo, Hes, Hn, subscribers_after_init.
    rewrite !length_app. unfold fresh_refs. rewrite !length_seq.
    rewrite decide_True by done. simpl. repeat split; lia.
Qed.

(** X19. Every further setScene(name) on a GameScene runs init()
    again and creates everything again: after k calls the scene and the
    engine each hold 5k more objects and k more handlers are subscribed
    to itemCollected, so that collecting one item is announced k times
    more. *)
Theorem setScene_again_creates_again
    (w : World) (name : string) (s : ref) (sc : Scene)
    (p : option ref) (its : list ref) (cg : bool) (k : nat) :
  scenes (engine w) !! name = Some s ->
  sceneStore w !! s = Some sc ->
  scene_engine sc = true ->
  scene_kind sc = IsGameScene p its cg ->
  exists w' : World,
    repeatM k (GameEngine_setScene name) w = Return tt w' (repeat (Init s) k) /\
    length (scene_gameObjects (scene_at w' s)) =
      (length (scene_gameObjects sc) + 5 * k)%nat /\
    length (gameObjects (engine w')) =
      (length (gameObjects (engine w)) + 5 * k)%nat /\
    (forall data : payload,
        length (EventSystem_emit "itemCollected" data (eventSystem (engine w'))) =
          (length (EventSystem_emit "itemCollected" data (eventSystem (engine w)))
           + k)%nat) /\
    nextRef w' = (nextRef w + 8 * k)%nat.
Proof.
  intros Hname Hs He Hk. destruct sc as [e l kind]. simpl in *. subst e kind.
  destruct (setScene_GameScene_times k name s w l p its cg Hname Hs)
    as (w' & l' & p' & its' & E & Hs' & Hl & Hi & Hg & Hsub & Hn').
  exists w'. split; [exact E|]. unfold scene_at. rewrite Hs'. simpl.
  split; [exact Hl|]. split; [exact Hg|]. split; [|exact Hn'].
  intros data. by rewrite !emit_subscribers, !length_map.
Qed.

Lemma setScene_again_creates_again_witness :
  exists w' : World,
    repeatM 3 (GameEngine_setScene "game") (initGame 800 600) =
      Return tt w' [Init game_scene; Init game_scene; Init game_scene] /\
    length (gameObjects (engine w')) = 15%nat.
Proof.
  destruct (setScene_again_creates_again (initGame 800 600) "game" game_scene
              (scene_at (initGame 800 600) game_scene) None [] false 3)
    as (w' & E & _ & Hg & _); [by vm_compute..|].
  exists w'. split; [exact E|exact Hg].
Defined.

(** *** The objects of an activated GameScene *)

Lemma occurrences_app (obj : ref) (l1 l2 : list ref) :
  occurrences obj (l1 ++ l2) = (occurrences obj l1 + occurrences obj l2)%nat.
Proof. unfold occurrences. by rewrite filter_app, length_app. Qed.

Lemma occurrences_seq (obj n count : nat) :
  (n <= obj < n + count)%nat -> occurrences obj (seq n count) = 1%nat.
Proof.
  revert n. induction count as [|count IH]; intros n H; [lia|].
  simpl. rewrite occurrences_cons.
  destruct (decide (n = obj)) as [->|Hne].
  - rewrite occurrences_not_elem; [done|].
    rewrite elem_of_seq. lia.
  - rewrite IH by lia. done.
Qed.

Lemma allocated_not_elem (w : World) (l : list ref) (r : ref) :
  allocated w l = true -> (nextRef w <= r)%nat -> r ∉ l.
Proof.
  unfold allocated. rewrite forallb_forall. intros H Hr Hin.
  apply list_elem_of_In, H, Nat.ltb_lt in Hin. lia.
Qed.

(** X20. In the game as it is started, everything GameScene.init
    creates is updated twice per frame: after setScene(name) on a
    registered GameScene, engine.update completes and calls the update
    of the new player and of each new item exactly twice, once through
    the scene and once through the list of the engine. *)
Theorem activated_GameScene_updates_twice
    (w : World) (name : string) (s : ref) (sc : Scene)
    (p : option ref) (its : list ref) (cg : bool) (dt : Q) :
  scenes (engine w) !! name = Some s ->
  sceneStore w !! s = Some sc ->
  scene_engine sc = true ->
  scene_kind sc = IsGameScene p its cg ->
  allocated w (gameObjects (engine w) ++ scene_gameObjects sc) = true ->
  forallb (attached_if_player w)
    (gameObjects (engine w) ++ scene_gameObjects sc) = true ->
  exists (w1 w2 : World) (tr : list effect),
    GameEngine_setScene name w = Return tt w1 [Init s] /\
    GameEngine_update dt w1 = Return tt w2 (EngineUpdate dt :: tr) /\
    (forall r : ref, r ∈ fresh_refs (nextRef w) 5 -> updateCalls r tr = 2%nat).
Proof.
  intros Hname Hs He Hk Halloc Hatt.
  destruct sc as [e l kind]. simpl in *. subst e kind.
  set (n := nextRef w) in *.
  destruct (setScene_GameScene w name s l p its cg Hname Hs)
    as (w1 & E1 & Hsc & Hcur & Hst & Hgo & Hes & Hob & Hn & _).
  fold n in Hst, Hgo, Hes, Hob, Hn.
  assert (Hold : forall r, (r < n)%nat ->
            attached_if_player w1 r = attached_if_player w r).
  { intros r Hr. unfold attached_if_player.
    by rewrite Hob, !lookup_insert_ne by lia. }
  assert (Hnew : forall r, r ∈ fresh_refs n 5 ->
            attached_if_player w1 r = true /\ is_Some (objects w1 !! r)).
  { intros r Hr. unfold fresh_refs in Hr. apply elem_of_seq in Hr.
    unfold attached_if_player. rewrite Hob.
    assert (r = n \/ r = (n + 1)%nat \/ r = (n + 2)%nat \/ r = (n + 3)%nat \/
            r = (n + 4)%nat) as [->|[->|[->|[->| ->]]]] by lia;
      rewrite ?lookup_insert_eq;
      repeat (rewrite lookup_insert_ne by lia; rewrite ?lookup_insert_eq);
      simpl; split; try done; by eexists. }
  assert (Hlists : forall l0, allocated w l0 = true ->
            forallb (attached_if_player w) l0 = true ->
            forallb (attached_if_player w1) (l0 ++ fresh_refs n 5) = true).
  { intros l0 Ha Hf. rewrite forallb_app. apply andb_true_iff. split.
    - rewrite forallb_forall in *. intros r Hr. rewrite Hold; [by apply Hf|].
      unfold allocated in Ha. rewrite forallb_forall in Ha.
      by apply Nat.ltb_lt, Ha.
    - rewrite forallb_forall. intros r Hr.
      apply list_elem_of_In in Hr. by apply Hnew. }
  unfold allocated in Halloc. rewrite !forallb_app in Halloc, Hatt.
  apply andb_true_iff in Halloc as [Ha1 Ha2].
  apply andb_true_iff in Hatt as [Hf1 Hf2].
  assert (Hcan : can_update w1 = true).
  { unfold can_update. rewrite Hgo, Hcur, Hst, lookup_insert_eq.
    cbn [scene_gameObjects].
    rewrite (Hlists _ Ha1 Hf1), (Hlists _ Ha2 Hf2). done. }
  assert (Hspec : forall r, exists w2 tr,
            GameEngine_update dt w1 = Return tt w2 (EngineUpdate dt :: tr) /\
            (r ∈ fresh_refs n 5 -> updateCalls r tr = 2%nat)).
  { intros r.
    destruct (GameEngine_update_spec w1 r dt Hcan) as (w2 & tr & E & _ & _ & C).
    exists w2, tr. split; [exact E|]. intros Hr.
    rewrite C by (by apply Hnew).
    unfold active_scene_objects. rewrite Hcur, Hst, lookup_insert_eq, Hgo.
    cbn [scene_gameObjects]. rewrite !occurrences_app.
    assert (Hrn : (n <= r < n + 5)%nat)
      by (unfold fresh_refs in Hr; by apply elem_of_seq in Hr).
    rewrite (occurrences_not_elem r l)
      by (eapply allocated_not_elem; [exact Ha2|fold n; lia]).
    rewrite (occurrences_not_elem r (gameObjects (engine w)))
      by (eapply allocated_not_elem; [exact Ha1|fold n; lia]).
    unfold fresh_refs. rewrite !occurrences_seq by done. done. }
  destruct (Hspec n) as (w2 & tr & E & _).
  exists w1, w2, tr. split; [exact E1|]. split; [exact E|].
  intros r Hr. destruct (Hspec r) as (w2' & tr' & E' & C').
  rewrite E in E'. injection E' as _ <-. by apply C'.
Qed.

Lemma activated_GameScene_updates_twice_witness :
  exists (w1 w2 : World) (tr : list effect),
    GameEngine_setScene "game" (initGame 800 600) =
      Return tt w1 [Init game_scene] /\
    GameEngine_update 16 w1 = Return tt w2 (EngineUpdate 16 :: tr) /\
    updateCalls 1 tr = 2%nat /\ updateCalls 5 tr = 2%nat.
Proof.
  destruct (activated_GameScene_updates_twice (initGame 800 600) "game"
              game_scene (scene_at (initGame 800 600) game_scene) None []
              false 16)
    as (w1 & w2 & tr & E1 & E2 & H); [by vm_compute..|].
  exists w1, w2, tr. split; [exact E1|]. split; [exact E2|].
  split; apply H; apply (bool_decide_unpack _); by vm_compute.
Defined.

(** *** The CG system *)

Lemma cg_step_consistent (bus : option EventSystem) (page : CGPage)
    (op : cg_op) :
  cg_consistent page -> cg_consistent (cg_step bus page op).
Proof.
  destruct page as [[playing cur] ovs]. unfold cg_consistent. simpl.
  intros [Hov Hpl]. destruct op as [d|]; simpl.
  - unfold CGSystem_playCG. simpl.
    destruct playing; simpl; [done|].
    destruct cur as [c|]; [by vm_compute in Hpl|]. by subst ovs.
  - subst ovs. by destruct cur.
Qed.

Lemma cg_history_consistent (bus : option EventSystem) (ops : list cg_op)
    (page : CGPage) :
  cg_consistent page -> cg_consistent (cg_history bus ops page).
Proof.
  unfold cg_history. revert page.
  induction ops as [|op ops IH]; simpl; intros page H; [done|].
  apply IH. by apply cg_step_consistent.
Qed.

(** X21. The CG system shows one CG at a time. From a page whose
    overlays agree with the slot, after any history of requests and
    dismissals (close button or timers, in any order) the document
    holds exactly the overlay of the current CG, or none when idle; a
    request made while a CG is playing changes nothing and calls
    nobody; one closeCG brings the page back to the idle page without
    overlays; and the cgEnded handlers receive null, not the CG that
    ended. *)
Theorem cg_single_slot
    (bus : option EventSystem) (ops : list cg_op) (page : CGPage)
    (cgData : CGData) :
  cg_consistent page ->
  let page' := cg_history bus ops page in
  cg_consistent page' /\
  (isPlaying (cgSystem page') = true ->
   CGSystem_playCG cgData bus page' = (page', [])) /\
  CGSystem_closeCG bus page' = (CGPage_new, cg_emit "cgEnded" None bus).
Proof.
  intros H page'.
  assert (Hc : cg_consistent page') by by apply cg_history_consistent.
  split; [done|]. split.
  - intros Hp. unfold CGSystem_playCG. by rewrite Hp.
  - destruct Hc as [Hov _]. unfold CGSystem_closeCG. rewrite Hov.
    by destruct (currentCG (cgSystem page')).
Qed.

(** Two requests in a row, then the timer of the first: the second
    request was dropped, the first CG is the one showing, and a third
    request is dropped as well. *)
Lemma cg_single_slot_witness :
  let a := mkCGData (Some "a") "a.png" None (Some 5000) in
  let b := mkCGData (Some "b") "b.png" None None in
  let bus := Some (EventSystem_on "cgEnded" 7%nat EventSystem_new) in
  let page' := cg_history bus [PlayCG a; PlayCG b] CGPage_new in
  overlays page' = [a] /\
  CGSystem_playCG b bus page' = (page', []) /\
  CGSystem_closeCG bus page' = (CGPage_new, [CGCalled 7%nat None]).
Proof.
  intros a b bus page'.
  destruct (cg_single_slot bus [PlayCG a; PlayCG b] CGPage_new b)
    as (Hc & Hdrop & Hclose).
  - split; reflexivity.
  - split; [exact (proj1 Hc)|]. split; [exact (Hdrop eq_refl)|exact Hclose].
Defined.

(** *** The menu *)

Lemma GameMenu_keydown_range (code : string) (m : GameMenu) :
  (0 <= currentButtonIndex m < 4)%Z ->
  (0 <= currentButtonIndex (GameMenu_keydown code m).1 < 4)%Z.
Proof.
  intros H. unfold GameMenu_keydown.
  destruct (negb (menu_visible m)); [done|].
  destruct (String.eqb code "ArrowUp"); simpl.
  { pose proof (Z.rem_bound_pos (currentButtonIndex m - 1 + 4) 4). lia. }
  destruct (String.eqb code "ArrowDown"); simpl.
  { pose proof (Z.rem_bound_pos (currentButtonIndex m + 1) 4). lia. }
  by destruct (String.eqb code "Enter" || String.eqb code "Space").
Qed.

Lemma menu_run_range (evs : list menu_event) :
  (0 <= currentButtonIndex (menu_run evs) < 4)%Z.
Proof.
  unfold menu_run.
  induction evs as [|ev evs IH] using rev_ind; [simpl; lia|].
  rewrite fold_left_app. simpl.
  destruct ev as [code|v]; simpl; [|done].
  by apply GameMenu_keydown_range.
Qed.

Lemma button_at_range (i : Z) : (0 <= i < 4)%Z -> is_Some (button_at i).
Proof.
  intros H. unfold button_at.
  destruct (Z.ltb_spec i 0); [lia|].
  apply lookup_lt_is_Some. simpl. lia.
Qed.

(** X22. Keyboard navigation of the menu never leaves the four buttons:
    after any history of keys and of changes of visibility, the
    highlighted index is one of 0..3, no key makes the listener click a
    button that does not exist, and while the menu is visible ArrowUp
    and ArrowDown undo each other (wrapping around at both ends). *)
Theorem menu_navigation_stays_on_buttons
    (evs : list menu_event) (code : string) :
  let m := menu_run evs in
  (0 <= currentButtonIndex m < 4)%Z /\
  (GameMenu_keydown code m).2 <> KeyTypeError /\
  (menu_visible m = true ->
   (GameMenu_keydown "ArrowDown" (GameMenu_keydown "ArrowUp" m).1).1 = m /\
   (GameMenu_keydown "ArrowUp" (GameMenu_keydown "ArrowDown" m).1).1 = m).
Proof.
  intros m. pose proof (menu_run_range evs) as Hr. fold m in Hr. clearbody m.
  split; [done|]. split.
  - unfold GameMenu_keydown.
    destruct (negb (menu_visible m)); [done|].
    destruct (String.eqb code "ArrowUp"); [done|].
    destruct (String.eqb code "ArrowDown"); [done|].
    destruct (String.eqb code "Enter" || String.eqb code "Space"); [|done].
    simpl. destruct (button_at_range _ Hr) as [b Hb]. by rewrite Hb.
  - intros Hv. destruct m as [v i]. simpl in *. subst v.
    unfold GameMenu_keydown. simpl.
    assert (Hi : i = 0%Z \/ i = 1%Z \/ i = 2%Z \/ i = 3%Z) by lia.
    by destruct Hi as [-> | [-> | [-> | ->]]].
Qed.

(** ArrowUp from the first button wraps to the last one, exitGame;
    Enter clicks it, and ArrowDown goes back to the first. *)
Lemma menu_navigation_stays_on_buttons_witness :
  let m := menu_run [MenuKey "ArrowUp"] in
  currentButtonIndex m = 3%Z /\
  (GameMenu_keydown "Enter" m).2 <> KeyTypeError /\
  (GameMenu_keydown "ArrowDown" (GameMenu_keydown "ArrowUp" m).1).1 = m /\
  (GameMenu_keydown "ArrowUp" (GameMenu_keydown "ArrowDown" m).1).1 = m.
Proof.
  intros m.
  destruct (menu_navigation_stays_on_buttons [MenuKey "ArrowUp"] "Enter")
    as (_ & Hkey & Hround).
  split; [reflexivity|]. split; [exact Hkey|].
  exact (Hround eq_refl).
Defined.

Lemma GameEngine_stop_run (w : World) :
  GameEngine_stop w = Return tt (set_engine (set_isRunning false (engine w)) w) [].
Proof. done. Qed.

(** X23. Escape pauses for good. With the menu hidden, the Escape key
    publishes keydown, shows the menu and stops the loop; hiding the
    menu again with toggle does not restart it, and the frames still
    pending do nothing: no update, no render, no further frame
    requested. *)
Theorem escape_stops_the_loop
    (w : World) (m : GameMenu) (times : list Q) :
  menu_visible m = false ->
  exists w',
    (m1 ← Escape_pressed m;
     m2 ← GameMenu_toggle m1;
     GameEngine_ticks times ;;
     mret (m1, m2)) w =
    Return (mkGameMenu true (currentButtonIndex m), m) w'
      (EventSystem_emit "keydown" (KeyPayload "Escape") (eventSystem (engine w))) /\
    isRunning (engine w') = false /\
    keys (engine w') = <["Escape" := true]> (keys (engine w)) /\
    objects w' = objects w /\ sceneStore w' = sceneStore w.
Proof.
  intros Hv. destruct m as [v i]. simpl in Hv. subst v.
  eexists. split.
  - unfold Escape_pressed, GameMenu_keydown, GameEngineWithMenu_keydown,
      GameMenu_toggle, GameMenu_show, GameMenu_hide, GameEngine_keydown.
    simpl. unfold GameEngine_stop. mrun. simpl. mrun.
    rewrite run_bind, ticks_stopped by done. simpl.
    rewrite app_nil_r. reflexivity.
  - done.
Qed.

(** Escape in the started game, with two frames pending. *)
Lemma escape_stops_the_loop_witness :
  exists w',
    (m1 ← Escape_pressed (mkGameMenu false 2);
     m2 ← GameMenu_toggle m1;
     GameEngine_ticks [16; 32] ;;
     mret (m1, m2)) (started_game 0) =
    Return (mkGameMenu true 2, mkGameMenu false 2) w'
      (EventSystem_emit "keydown" (KeyPayload "Escape")
         (eventSystem (engine (started_game 0)))) /\
    isRunning (engine w') = false.
Proof.
  destruct (escape_stops_the_loop (started_game 0) (mkGameMenu false 2)
              [16; 32] eq_refl) as (w' & H1 & H2 & _).
  exists w'. split; [exact H1|exact H2].
Defined.

(** *** The pointer *)

(** X24. A click lasts one frame. After the pointer moves to (x, y) and
    clicks, the click handlers are called with that position before
    anything is updated, and the frame that follows, when it completes,
    leaves the pointer at (x, y) with the click flag down: the next
    frame sees no click. *)
Theorem click_lasts_one_frame (w : World) (x y dt : Q) :
  can_update w = true ->
  exists (w' : World) (tr : list effect),
    (GameEngine_mousemove x y ;; GameEngine_click ;; GameEngine_update dt) w =
      Return tt w'
        (EventSystem_emit "click" (ClickPayload x y) (eventSystem (engine w)) ++
         EngineUpdate dt :: tr) /\
    Forall update_effect tr /\
    mouse (engine w') = mkMouse x y false.
Proof.
  intros Hcan.
  unfold GameEngine_mousemove, GameEngine_click. mrun. simpl.
  set (w1 := set_engine _ _).
  assert (Hcan1 : can_update w1 = true) by exact Hcan.
  destruct (GameEngine_update_spec w1 0%nat dt Hcan1) as (w' & tr & Hrun & _ & Htr & _).
  destruct (GameEngine_update_keeps w1 dt) as (w2 & (Hm & _) & Hw).
  rewrite Hrun in Hw |- *. simpl in Hw.
  exists w', tr. split; [done|]. split; [done|].
  rewrite Hw. simpl. by rewrite Hm.
Qed.

(** A click on the key of the started game. *)
Lemma click_lasts_one_frame_witness :
  exists (w' : World) (tr : list effect),
    (GameEngine_mousemove 210 160 ;; GameEngine_click ;; GameEngine_update 16)
      (started_game 0) =
      Return tt w'
        (EventSystem_emit "click" (ClickPayload 210 160)
           (eventSystem (engine (started_game 0))) ++
         EngineUpdate 16 :: tr) /\
    mouse (engine w') = mkMouse 210 160 false.
Proof.
  assert (Hcan : can_update (started_game 0) = true)
    by (vm_compute; reflexivity).
  destruct (click_lasts_one_frame (started_game 0) 210 160 16 Hcan)
    as (w' & tr & Hrun & _ & Hm).
  exists w', tr. split; [exact Hrun|exact Hm].
Defined.
